(** * A chunked LZ77 compressor: shallow embedding and verification

    The development follows [multithreaded_compressor.cpp]:

    - [LZ77::compress] and [LZ77::decompress], the byte-aligned token codec;
    - [write_all] and [read_and_decompress_file], the [MTC1] container;
    - the chunking arithmetic and the two command paths of [main].

    Conventions of the embedding.  A [vector<u8>] is a [list byte]; an index
    into a vector is a [nat] and [v[i]] is [nth_error v i], whose [None] case
    is the C++ undefined behaviour and is kept as the outcome [Fault].  The
    fixed-width integers [u8], [u16], [u32], [u64] and the 64-bit [size_t] of
    the file-level arithmetic are [Z] with the wrap-around written as [mod].
    A [throw runtime_error(msg)] is the outcome [Throw].  Loops whose trip
    count is known on entry recurse on that count; the two [while (pos < n)]
    loops carry fuel and report [Timeout] when it runs out. *)

From Stdlib Require Import String List ZArith Lia Bool Arith.
From Stdlib.Strings Require Import Byte.
From Stdlib Require Import DecimalString Permutation.
Import ListNotations.

(** ** Outcomes *)

(** The messages of the [runtime_error]s thrown by the program. *)
Inductive error : Type :=
| corrupt_literal
| corrupt_match
| invalid_offset
| unknown_token_flag
| cannot_open_input_file
| bad_file
| not_a_MTC1_file
| bad_file_header
| cannot_open_output_file
| bad_file_read.

Definition what (e : error) : string :=
  match e with
  | corrupt_literal => "corrupt literal"
  | corrupt_match => "corrupt match"
  | invalid_offset => "invalid offset"
  | unknown_token_flag => "unknown token flag"
  | cannot_open_input_file => "cannot open input file"
  | bad_file => "bad file"
  | not_a_MTC1_file => "not a MTC1 file"
  | bad_file_header => "bad file header"
  | cannot_open_output_file => "cannot open output file"
  | bad_file_read => "bad file read"
  end%string.

(** The error kinds of the specification (section 7).  The program has a
    single exception type; the kind is read off the throwing site. *)
Inductive error_kind : Type := IOError | FormatError | CorruptionError.

Definition kind (e : error) : error_kind :=
  match e with
  | corrupt_literal | corrupt_match | invalid_offset | unknown_token_flag =>
      CorruptionError
  | bad_file | not_a_MTC1_file | bad_file_header | bad_file_read => FormatError
  | cannot_open_input_file | cannot_open_output_file => IOError
  end.

Inductive outcome (A : Type) : Type :=
| Ok (a : A)          (* normal return *)
| Throw (e : error)   (* a C++ exception *)
| Fault               (* an index outside its vector *)
| Timeout.            (* fuel exhausted *)

Arguments Ok {A} a.
Arguments Throw {A} e.
Arguments Fault {A}.
Arguments Timeout {A}.

Definition bind {A B : Type} (m : outcome A) (f : A -> outcome B) : outcome B :=
  match m with
  | Ok a => f a
  | Throw e => Throw e
  | Fault => Fault
  | Timeout => Timeout
  end.

Notation "x <- m ;; k" := (bind m (fun x => k))
  (at level 61, m at next level, right associativity).
Notation "' p <- m ;; k" := (bind m (fun x => match x with p => k end))
  (at level 61, p pattern, m at next level, right associativity).

(** [v[i]] on a vector. *)
Definition at_index {A : Type} (v : list A) (i : nat) : outcome A :=
  match nth_error v i with
  | Some a => Ok a
  | None => Fault
  end.

(** ** Bytes and fixed-width integers *)

Definition byte_val (b : byte) : Z := Z.of_N (Byte.to_N b).

(** The conversion to [u8]: the value modulo 256. *)
Definition u8 (z : Z) : byte :=
  match Byte.of_N (Z.to_N (z mod 256)) with
  | Some b => b
  | None => x00
  end.

Definition u16 (z : Z) : Z := (z mod 65536)%Z.
Definition u32 (z : Z) : Z := (z mod 4294967296)%Z.
Definition u64 (z : Z) : Z := (z mod 18446744073709551616)%Z.

(** ** The codec *)

Record LZ77 : Type := {
  window_size : nat;
  lookahead : nat       (* max match length *)
}.

(** The member initialisers of [struct LZ77]. *)
Definition codec : LZ77 := {| window_size := 4096; lookahead := 255 |}.

(** The four bytes pushed for a match: the flag, [(u16)best_off] high byte
    first, and [(u8)min<size_t>(best_len, 255)]. *)
Definition match_bytes (best_off best_len : nat) : list byte :=
  let off := u16 (Z.of_nat best_off) in
  let llen := u8 (Z.of_nat (Nat.min best_len 255)) in
  [x01; u8 (Z.land (Z.shiftr off 8) 255); u8 (Z.land off 255); llen].

Section Compress.

Variable c : LZ77.
Variable input : list byte.

Let n := length input.

(** [while (len < lookahead && pos + len < n &&
           input[i + len] == input[pos + len]) ++len;]
    The counter [k] is [lookahead - len]. *)
Fixpoint match_len (i pos k len : nat) : outcome nat :=
  match k with
  | 0 => Ok len
  | S k' =>
      if pos + len <? n then
        a <- at_index input (i + len) ;;
        b <- at_index input (pos + len) ;;
        if Byte.eqb a b then match_len i pos k' (S len) else Ok len
      else Ok len
  end.

(** [for (size_t i = start; i < pos; ++i) { ... }] with its [break].
    The counter [k] is [pos - i]; the pair is [(best_off, best_len)]. *)
Fixpoint search (pos k i best_off best_len : nat) : outcome (nat * nat) :=
  match k with
  | 0 => Ok (best_off, best_len)
  | S k' =>
      len <- match_len i pos (lookahead c) 0 ;;
      let '(best_off, best_len) :=
        if best_len <? len then (pos - i, len) else (best_off, best_len) in
      if best_len =? lookahead c then Ok (best_off, best_len)
      else search pos k' (S i) best_off best_len
  end.

(** The search of one iteration of the outer loop. *)
Definition find_best (pos : nat) : outcome (nat * nat) :=
  let start := if window_size c <? pos then pos - window_size c else 0 in
  search pos (pos - start) start 0 0.

(** The body of [while (pos < n)]: the bytes pushed and the new [pos]. *)
Definition compress_step (pos : nat) : outcome (list byte * nat) :=
  '(best_off, best_len) <- find_best pos ;;
  if 3 <=? best_len then
    Ok (match_bytes best_off best_len, pos + best_len)
  else
    b <- at_index input pos ;;
    Ok ([x00; b], S pos).

Fixpoint compress_loop (fuel pos : nat) (out : list byte)
  : outcome (list byte) :=
  if pos <? n then
    match fuel with
    | 0 => Timeout
    | S fuel' =>
        '(bytes, pos') <- compress_step pos ;;
        compress_loop fuel' pos' (out ++ bytes)
    end
  else Ok out.

(** [pos] grows by at least one in every iteration, so [n] iterations
    are enough. *)
Definition compress : outcome (list byte) := compress_loop n 0 [].

End Compress.

Section Decompress.

(** [for (size_t i = 0; i < len; ++i) out.push_back(out[start + i]);]
    The counter [k] is [len - i]. *)
Fixpoint copy_loop (k start i : nat) (out : list byte)
  : outcome (list byte) :=
  match k with
  | 0 => Ok out
  | S k' =>
      b <- at_index out (start + i) ;;
      copy_loop k' start (S i) (out ++ [b])
  end.

Variable input : list byte.

Let n := length input.

Fixpoint decompress_loop (fuel pos : nat) (out : list byte)
  : outcome (list byte) :=
  if pos <? n then
    match fuel with
    | 0 => Timeout
    | S fuel' =>
        flag <- at_index input pos ;;
        let pos := S pos in
        if Byte.eqb flag x00 then
          if n <=? pos then Throw corrupt_literal
          else
            b <- at_index input pos ;;
            decompress_loop fuel' (S pos) (out ++ [b])
        else if Byte.eqb flag x01 then
          if n <? pos + 3 then Throw corrupt_match
          else
            hi <- at_index input pos ;;
            lo <- at_index input (pos + 1) ;;
            let off := u16 (Z.lor (Z.shiftl (byte_val hi) 8) (byte_val lo)) in
            let pos := pos + 2 in
            len <- at_index input pos ;;
            let pos := S pos in
            if ((off =? 0) || (Z.of_nat (length out) <? off))%Z
            then Throw invalid_offset
            else
              let start := length out - Z.to_nat off in
              out' <- copy_loop (Z.to_nat (byte_val len)) start 0 out ;;
              decompress_loop fuel' pos out'
        else Throw unknown_token_flag
    end
  else Ok out.

(** Every iteration consumes at least one byte of [input]. *)
Definition decompress : outcome (list byte) := decompress_loop n 0 [].

End Decompress.

(** The bytes of a text. *)
Definition bytes_of (s : string) : list byte := list_byte_of_string s.

(** ** The container file *)

(** A file is its content; an open [FILE*] being read is the part of the
    content after the cursor, and a file being written is the content
    written so far. *)
Definition file := list byte.

(** The tag ["MTC1"]. *)
Definition magic : list byte := [x4d; x54; x43; x31].

(** [fwrite(&v, w, 1, f)] of a [w]-byte unsigned integer.  The program
    writes the integers in the byte order of the machine; the embedding
    fixes the little-endian order of its x86 target. *)
Fixpoint le_bytes (w : nat) (v : Z) : list byte :=
  match w with
  | 0 => []
  | S w' => u8 v :: le_bytes w' (v / 256)
  end.

(** The integer held by the bytes read by [fread(&v, w, 1, f)]. *)
Fixpoint le_value (l : list byte) : Z :=
  match l with
  | [] => 0
  | b :: l' => byte_val b + 256 * le_value l'
  end.

(** [fread(buf, 1, size, f)]: the bytes obtained and the advanced cursor. *)
Definition fread (size : nat) (f : file) : list byte * file :=
  (firstn size f, skipn size f).

(** [read_file_chunk] on an input file that can be opened: seek to
    [offset], read up to [size] bytes, keep the bytes obtained. *)
Definition read_file_chunk (f : file) (offset size : Z) : list byte :=
  firstn (Z.to_nat size) (skipn (Z.to_nat offset) f).

(** [file_size] on an input file that can be opened. *)
Definition file_size (f : file) : Z := u64 (Z.of_nat (length f)).

(** The record loop of [write_all]; [k] is [chunks.size() - i].  The
    result is the bytes appended to the output file. *)
Fixpoint write_records (chunks : list (list byte)) (original_sizes : list Z)
    (k i : nat) : outcome (list byte) :=
  match k with
  | 0 => Ok []
  | S k' =>
      orig <- at_index original_sizes i ;;
      chunk <- at_index chunks i ;;
      let comp := u64 (Z.of_nat (length chunk)) in
      rest <- write_records chunks original_sizes k' (S i) ;;
      Ok (le_bytes 8 orig ++ le_bytes 8 comp
            ++ (if (comp =? 0)%Z then [] else chunk) ++ rest)
  end.

(** [write_all] on an output file that can be opened: the content written. *)
Definition write_all (chunks : list (list byte)) (original_sizes : list Z)
  : outcome file :=
  let cnt := u32 (Z.of_nat (length chunks)) in
  records <- write_records chunks original_sizes (length chunks) 0 ;;
  Ok (magic ++ le_bytes 4 cnt ++ records).

(** The record loop of [read_and_decompress_file]; [k] is [cnt - i], [f]
    the unread part of the container and [out] the content written to the
    output file so far, which is returned with the outcome.  A declared
    compressed size beyond the rest of the file ends in the short read;
    the failure of [compbuf.resize] for want of memory is left out. *)
Fixpoint decompress_records (k : nat) (f : file) (out : file)
  : file * outcome unit :=
  match k with
  | 0 => (out, Ok tt)
  | S k' =>
      let '(origb, f) := fread 8 f in
      if length origb <? 8 then (out, Throw bad_file) else
      let '(compb, f) := fread 8 f in
      if length compb <? 8 then (out, Throw bad_file) else
      let orig := le_value origb in
      let comp := le_value compb in
      let '(compbuf, f) := fread (Z.to_nat comp) f in
      if negb (comp =? 0)%Z && negb (Z.of_nat (length compbuf) =? comp)%Z
      then (out, Throw bad_file_read)
      else
        match decompress compbuf with
        | Ok decomp =>
            (* [if (decomp.size() != orig) { }]: the body is empty *)
            let _ := negb (Z.of_nat (length decomp) =? orig)%Z in
            decompress_records k' f (out ++ decomp)
        | Throw e => (out, Throw e)
        | Fault => (out, Fault)
        | Timeout => (out, Timeout)
        end
  end.

(** [read_and_decompress_file] on a container that can be opened and an
    output path that can be created.  The first component is the output
    file: [None] as long as it has not been opened. *)
Definition read_and_decompress_file (f : file) : option file * outcome unit :=
  let '(tag, f) := fread 4 f in
  if length tag <? 4 then (None, Throw bad_file) else
  if list_eq_dec byte_eq_dec tag magic then
    let '(cntb, f) := fread 4 f in
    if length cntb <? 4 then (None, Throw bad_file_header) else
    let cnt := le_value cntb in
    let '(out, r) := decompress_records (Z.to_nat cnt) f [] in
    (Some out, r)
  else (None, Throw not_a_MTC1_file).

(** The bytes a run has written to its output. *)
Definition written (o : option file) : list byte :=
  match o with
  | Some l => l
  | None => []
  end.

(** ** The container, as the specification lays it out *)

(** A record: the declared original size and the token stream. *)
Definition record_bytes (r : Z * list byte) : list byte :=
  le_bytes 8 (fst r) ++ le_bytes 8 (Z.of_nat (length (snd r))) ++ snd r.

(** The tag, the count of records and the records. *)
Definition container_of (rs : list (Z * list byte)) : file :=
  magic ++ le_bytes 4 (Z.of_nat (length rs)) ++ flat_map record_bytes rs.

(** What a token stream decodes to ([[]] where decoding fails). *)
Definition decoded (s : list byte) : list byte :=
  match decompress s with
  | Ok out => out
  | _ => []
  end.

(** What the encoder makes of a chunk. *)
Definition compressed (chunk : list byte) : list byte :=
  match compress codec chunk with
  | Ok out => out
  | _ => []
  end.

(** Chunk [i] of a file cut every [size] bytes. *)
Definition chunk_of (f : file) (size i : nat) : list byte :=
  firstn size (skipn (i * size) f).

(** ** The two commands of [main] *)

Definition nl : string := String (Ascii.ascii_of_nat 10) EmptyString.

(** What a run leaves behind: the exit status, the text sent to [cout] and
    to [cerr], and the output file. *)
Record run : Type := {
  exit_code : Z;
  cout : string;
  cerr : string;
  out_file : option file
}.

(** [main] in mode [d]. *)
Definition main_decompress (f : file) : outcome run :=
  match read_and_decompress_file f with
  | (o, Ok _) =>
      Ok {| exit_code := 0; cout := "Decompression done." ++ nl;
            cerr := ""; out_file := o |}
  | (o, Throw e) =>
      Ok {| exit_code := 1; cout := "";
            cerr := "Error: " ++ what e ++ nl; out_file := o |}
  | (_, Fault) => Fault
  | (_, Timeout) => Timeout
  end%string.

(** A run that tells of a size mismatch prints something besides the
    line of a successful run. *)
Definition reports_mismatch (r : run) : Prop :=
  cerr r <> ""%string \/ cout r <> ("Decompression done." ++ nl)%string.

(** [num_chunks = (size_t)((fsize + chunk_size - 1) / chunk_size)] with
    64-bit [u64] and [size_t]. *)
Definition num_chunks_of (fsize chunk_size : Z) : Z :=
  (u64 (fsize + chunk_size - 1) / chunk_size)%Z.

(** [read_sz] of chunk [i]. *)
Definition read_size (fsize chunk_size : Z) (i : nat) : Z :=
  let offset := u64 (Z.of_nat i * chunk_size) in
  Z.min chunk_size (u64 (fsize - offset)).

(** [original_sizes[i]]. *)
Definition original_size (fsize chunk_size num_chunks : Z) (i : nat) : Z :=
  if (Z.of_nat i =? num_chunks - 1)%Z
  then u64 (fsize - u64 (Z.of_nat i * chunk_size))
  else chunk_size.

(** [v[i] = x]. *)
Definition vec_set {A : Type} (v : list A) (i : nat) (x : A)
  : outcome (list A) :=
  if i <? length v then Ok (firstn i v ++ x :: skipn (S i) v) else Fault.

(** What the first loop of [main] leaves: either the early [return 1]
    with its message, or the futures. *)
Inductive submitted : Type :=
| Failed_to_read (i : nat)
| Futures (futs : list (nat * list byte)).

(** The first loop of [main], [k] being [num_chunks - i].  A task is a pure
    function of its chunk, so the value its future yields is computed
    here; the worker that runs it and the moment it does are left out. *)
Fixpoint submit_chunks (f : file) (fsize chunk_size : Z) (k i : nat)
  : outcome submitted :=
  match k with
  | 0 => Ok (Futures [])
  | S k' =>
      let offset := u64 (Z.of_nat i * chunk_size) in
      let read_sz := read_size fsize chunk_size i in
      let chunk := read_file_chunk f offset read_sz in
      if (length chunk =? 0) && negb (read_sz =? 0)%Z
      then Ok (Failed_to_read i)
      else
        comp <- compress codec chunk ;;
        rest <- submit_chunks f fsize chunk_size k' (S i) ;;
        match rest with
        | Failed_to_read j => Ok (Failed_to_read j)
        | Futures futs => Ok (Futures ((i, comp) :: futs))
        end
  end.

(** [for (auto &fut : futures) compressed_chunks[p.first] = move(p.second)]. *)
Fixpoint collect (futs : list (nat * list byte))
    (compressed_chunks : list (list byte)) : outcome (list (list byte)) :=
  match futs with
  | [] => Ok compressed_chunks
  | (i, comp) :: futs' =>
      v <- vec_set compressed_chunks i comp ;;
      collect futs' v
  end.

(** What a compression run leaves behind; the progress lines on [cout]
    are not part of the embedding. *)
Record compress_run : Type := {
  c_exit_code : Z;
  c_cerr : string;
  c_out_file : option file
}.

(** [main] in mode [c] on an input file that can be opened; [chunk_size]
    is the default or the value of the fourth argument.  The division by a
    zero [chunk_size] is undefined and reported as [Fault]. *)
Definition main_compress (f : file) (chunk_size : Z) : outcome compress_run :=
  let fsize := file_size f in
  if (fsize =? 0)%Z then
    Ok {| c_exit_code := 1;
          c_cerr := ("cannot read input or file empty" ++ nl)%string;
          c_out_file := None |}
  else if (chunk_size =? 0)%Z then Fault
  else
    let num_chunks := num_chunks_of fsize chunk_size in
    let count := Z.to_nat num_chunks in
    s <- submit_chunks f fsize chunk_size count 0 ;;
    match s with
    | Failed_to_read i =>
        Ok {| c_exit_code := 1;
              c_cerr := ("Failed to read chunk "
                         ++ NilEmpty.string_of_uint (Nat.to_uint i) ++ nl)%string;
              c_out_file := None |}
    | Futures futs =>
        let original_sizes :=
          map (original_size fsize chunk_size num_chunks) (seq 0 count) in
        compressed_chunks <- collect futs (repeat [] count) ;;
        container <- write_all compressed_chunks original_sizes ;;
        Ok {| c_exit_code := 0; c_cerr := ""%string;
              c_out_file := Some container |}
    end.

(** The chunk count of the specification: the ceiling of
    [total_size / chunk_size], over the integers. *)
Definition ceil_div (total_size chunk_size : Z) : Z :=
  ((total_size + chunk_size - 1) / chunk_size)%Z.

(** The records [main] writes for a file cut every [size] bytes. *)
Definition records_of (f : file) (size count : nat) : list (Z * list byte) :=
  map (fun j => (original_size (Z.of_nat (length f)) (Z.of_nat size)
                   (Z.of_nat count) j,
                 compressed (chunk_of f size j)))
      (seq 0 count).

(** The default of [chunk_size]: [1 << 20]. *)
Definition default_chunk_size : Z := 1048576.

(** ** The token stream, as the specification describes it *)

Inductive token : Type :=
| Literal (b : byte)
| Match (offset length : nat).

(** The layout of a token: [[0x00][literal_byte]] or
    [[0x01][offset_hi][offset_lo][length]]. *)
Definition token_bytes (t : token) : list byte :=
  match t with
  | Literal b => [x00; b]
  | Match offset length => match_bytes offset length
  end.

(** The input bytes a token stands for. *)
Definition span (t : token) : nat :=
  match t with
  | Literal _ => 1
  | Match _ length => length
  end.

(** The offset held by the two offset bytes of a match token. *)
Definition offset_of (hi lo : byte) : nat :=
  Z.to_nat (256 * byte_val hi + byte_val lo).

(** Appending [length] bytes copied from [offset] bytes behind the current
    end of the output, one byte at a time. *)
Fixpoint expand (length offset : nat) (out : list byte) : list byte :=
  match length with
  | 0 => out
  | S length' =>
      expand length' offset
        (out ++ [nth (List.length out - offset) out x00])
  end.

(** The streams on which decoding fails, in the words of the
    specification: the stream ends inside a token, a flag is neither [0x00]
    nor [0x01], or the offset of a match is 0 or exceeds the length of the
    output decoded so far.  The first index is that output. *)
Inductive corrupt_stream : list byte -> list byte -> Prop :=
| literal_cut_short out :
    corrupt_stream out [x00]
| match_cut_short out payload :
    length payload < 3 ->
    corrupt_stream out (x01 :: payload)
| flag_unknown out flag rest :
    flag <> x00 -> flag <> x01 ->
    corrupt_stream out (flag :: rest)
| offset_invalid out hi lo len rest :
    offset_of hi lo = 0 \/ length out < offset_of hi lo ->
    corrupt_stream out (x01 :: hi :: lo :: len :: rest)
| corrupt_after_literal out b rest :
    corrupt_stream (out ++ [b]) rest ->
    corrupt_stream out (x00 :: b :: rest)
| corrupt_after_match out hi lo len rest :
    1 <= offset_of hi lo <= length out ->
    corrupt_stream
      (expand (Z.to_nat (byte_val len)) (offset_of hi lo) out) rest ->
    corrupt_stream out (x01 :: hi :: lo :: len :: rest).

(** ** The decoder on the unread part of its input

    [decode_from s out] is the loop of [decompress] started with [s] still
    to read and [out] decoded; it recurses on [s] and serves the proofs. *)
Fixpoint decode_from (s : list byte) (out : list byte) : outcome (list byte) :=
  match s with
  | [] => Ok out
  | flag :: s =>
      if Byte.eqb flag x00 then
        match s with
        | [] => Throw corrupt_literal
        | b :: s => decode_from s (out ++ [b])
        end
      else if Byte.eqb flag x01 then
        match s with
        | hi :: lo :: len :: s =>
            let off := u16 (Z.lor (Z.shiftl (byte_val hi) 8) (byte_val lo)) in
            if ((off =? 0) || (Z.of_nat (length out) <? off))%Z
            then Throw invalid_offset
            else
              let start := length out - Z.to_nat off in
              out' <- copy_loop (Z.to_nat (byte_val len)) start 0 out ;;
              decode_from s out'
        | _ => Throw corrupt_match
        end
      else Throw unknown_token_flag
  end.

(** ** The match search, as the specification describes it *)

Section Candidates.

Variable c : LZ77.
Variable input : list byte.

(** The candidates of position [pos]: the positions [i] of
    [[max(0, pos - window_size), pos)]. *)
Definition in_window (pos i : nat) : Prop :=
  pos - window_size c <= i < pos.

(** [length] bytes from [i] on equal those from [pos] on, within the
    input and within the longest length a token can hold. *)
Definition match_at (pos i length : nat) : Prop :=
  length <= lookahead c
  /\ pos + length <= List.length input
  /\ forall j, j < length ->
       nth_error input (i + j) = nth_error input (pos + j).

(** The length the inner loop finds for candidate [i]. *)
Definition mlen (pos i : nat) : nat :=
  match match_len input i pos (lookahead c) 0 with
  | Ok len => len
  | _ => 0
  end.

(** [(best_off, best_len)] after the candidates of [[lo, hi)]: no
    candidate is longer, and the pair is still the initial [(0, 0)] or
    comes from the first candidate of that length. *)
Definition best_in (pos lo hi best_off best_len : nat) : Prop :=
  (forall j, lo <= j < hi -> mlen pos j <= best_len)
  /\ (best_len = 0 /\ best_off = 0
      \/ exists j, lo <= j < hi /\ best_off = pos - j
                   /\ mlen pos j = best_len /\ 0 < best_len
                   /\ forall j', lo <= j' < j -> mlen pos j' < best_len).

(** The run of the outer loop of [compress] from [pos] on, token by
    token. *)
Inductive compress_trace : nat -> list token -> Prop :=
| trace_end :
    compress_trace (length input) []
| trace_literal pos best_off best_len b ts :
    pos < length input ->
    find_best c input pos = Ok (best_off, best_len) ->
    best_len < 3 ->
    nth_error input pos = Some b ->
    compress_trace (S pos) ts ->
    compress_trace pos (Literal b :: ts)
| trace_match pos best_off best_len ts :
    pos < length input ->
    find_best c input pos = Ok (best_off, best_len) ->
    3 <= best_len ->
    compress_trace (pos + best_len) ts ->
    compress_trace pos (Match best_off best_len :: ts).

(** A token the encoder may emit: a literal, or a match whose fields
    are in range. *)
Definition valid_token (t : token) : Prop :=
  match t with
  | Literal _ => True
  | Match offset length =>
      1 <= offset <= window_size c /\ 3 <= length <= 255
  end.

(** The tie-break the specification states: no candidate of the emitted
    length is closer than the emitted offset. *)
Definition prefers_smallest_offset : Prop :=
  forall pos best_off best_len,
    pos < length input ->
    find_best c input pos = Ok (best_off, best_len) ->
    3 <= best_len ->
    forall i, in_window pos i -> mlen pos i = best_len ->
              best_off <= pos - i.

End Candidates.

(** A record the record loop reads through: its token stream has less
    than [2^64] bytes and decodes. *)
Definition well_formed_record (r : Z * list byte) : Prop :=
  (Z.of_nat (length (snd r)) < 18446744073709551616)%Z
  /\ exists d, decompress (snd r) = Ok d.

(** ** The thread pool

    The state of a [ThreadPool] and the steps that change it.  The queue
    and the flag [stop] are touched only with the mutex [m] held, so every
    critical section is one step; which thread takes the next step is left
    open, and a run is a list of events.  A worker is waiting in
    [cv.wait] (or on its way to it), running the job it has taken, or has
    returned from [worker_loop]. *)

Section ThreadPool.

Variable T : Type.   (* the jobs, [function<void()>] *)

Inductive worker : Type :=
| Waiting
| Running (job : T)
| Returned.

(** The members [tasks] (front first), [stop] and [workers]; [taken] and
    [done] are the history of the run: the jobs popped from the queue and
    the jobs whose call has returned, both in order. *)
Record pool : Type := {
  tasks : list T;
  stop : bool;
  workers : list worker;
  taken : list T;
  done : list T
}.

(** [ThreadPool(n)]: [n] workers enter [worker_loop]. *)
Definition ThreadPool (n : nat) : pool :=
  {| tasks := []; stop := false; workers := repeat Waiting n;
     taken := []; done := [] |}.

Inductive event : Type :=
| Enqueue (t : T)       (* [enqueue]: [tasks.emplace] under the lock *)
| Take (w : nat)        (* worker [w] leaves [cv.wait] and pops a job *)
| Finish (w : nat)      (* [job()] of worker [w] returns *)
| Exit (w : nat)        (* worker [w] leaves [cv.wait] and returns *)
| Shutdown.             (* the destructor sets [stop] *)

Definition set_worker (ws : list worker) (w : nat) (x : worker)
  : list worker :=
  firstn w ws ++ x :: skipn (S w) ws.

(** One step.  [cv.wait] lets a worker through when [stop] is set or the
    queue is not empty; the worker then returns if [stop] is set and the
    queue is empty, and pops the front job otherwise.  [None]: the event
    cannot happen in this state. *)
Definition pool_step (p : pool) (e : event) : option pool :=
  match e with
  | Enqueue t =>
      Some {| tasks := tasks p ++ [t]; stop := stop p;
              workers := workers p; taken := taken p; done := done p |}
  | Shutdown =>
      Some {| tasks := tasks p; stop := true;
              workers := workers p; taken := taken p; done := done p |}
  | Take w =>
      match nth_error (workers p) w, tasks p with
      | Some Waiting, job :: rest =>
          Some {| tasks := rest; stop := stop p;
                  workers := set_worker (workers p) w (Running job);
                  taken := taken p ++ [job]; done := done p |}
      | _, _ => None
      end
  | Exit w =>
      match nth_error (workers p) w, tasks p with
      | Some Waiting, [] =>
          if stop p then
            Some {| tasks := []; stop := stop p;
                    workers := set_worker (workers p) w Returned;
                    taken := taken p; done := done p |}
          else None
      | _, _ => None
      end
  | Finish w =>
      match nth_error (workers p) w with
      | Some (Running job) =>
          Some {| tasks := tasks p; stop := stop p;
                  workers := set_worker (workers p) w Waiting;
                  taken := taken p; done := done p ++ [job] |}
      | _ => None
      end
  end.

Fixpoint pool_run (p : pool) (evs : list event) : option pool :=
  match evs with
  | [] => Some p
  | e :: evs' =>
      match pool_step p e with
      | Some p' => pool_run p' evs'
      | None => None
      end
  end.

(** The jobs enqueued by a run, in order. *)
Definition enqueued (evs : list event) : list T :=
  flat_map (fun e => match e with Enqueue t => [t] | _ => [] end) evs.

(** The jobs the workers are running. *)
Definition running (ws : list worker) : list T :=
  flat_map (fun w => match w with Running job => [job] | _ => [] end) ws.

(** No [enqueue] after the destructor has started: the owner of the pool
    destroys it after its last submission. *)
Fixpoint no_late_enqueue (stopped : bool) (evs : list event) : bool :=
  match evs with
  | [] => true
  | Enqueue _ :: evs' => negb stopped && no_late_enqueue stopped evs'
  | Shutdown :: evs' => no_late_enqueue true evs'
  | _ :: evs' => no_late_enqueue stopped evs'
  end.

(** What a worker that has returned tells: [stop] is set and the queue is
    empty. *)
Definition drained (p : pool) : Prop :=
  In Returned (workers p) -> stop p = true /\ tasks p = [].

End ThreadPool.

Arguments Waiting {T}.
Arguments Running {T} job.
Arguments Returned {T}.
Arguments ThreadPool {T} n.
Arguments Enqueue {T} t.
Arguments Take {T} w.
Arguments Finish {T} w.
Arguments Exit {T} w.
Arguments Shutdown {T}.
Arguments tasks {T} p.
Arguments stop {T} p.
Arguments workers {T} p.
Arguments taken {T} p.
Arguments done {T} p.
Arguments set_worker {T} ws w x.
Arguments pool_step {T} p e.
Arguments pool_run {T} p evs.
Arguments enqueued {T} evs.
Arguments running {T} ws.
Arguments no_late_enqueue {T} stopped evs.
Arguments drained {T} p.


(** * Properties *)

(** ** Bytes *)

Lemma byte_val_range (b : byte) : (0 <= byte_val b < 256)%Z.
Proof.
  unfold byte_val. pose proof (Byte.to_N_bounded b). lia.
Qed.

Lemma byte_val_u8 (z : Z) : byte_val (u8 z) = (z mod 256)%Z.
Proof.
  unfold u8, byte_val.
  assert (Hr : (0 <= z mod 256 < 256)%Z) by (apply Z.mod_pos_bound; lia).
  destruct (Byte.of_N (Z.to_N (z mod 256))) as [b|] eqn:E.
  - apply Byte.to_of_N in E. rewrite E. lia.
  - apply Byte.of_N_None_iff in E. lia.
Qed.

Lemma u8_byte_val (b : byte) : u8 (byte_val b) = b.
Proof.
  unfold u8. pose proof (byte_val_range b) as Hr.
  rewrite Z.mod_small by lia. unfold byte_val.
  rewrite N2Z.id, Byte.of_to_N. reflexivity.
Qed.

Lemma byte_val_inj (a b : byte) : byte_val a = byte_val b -> a = b.
Proof.
  intros H. rewrite <- (u8_byte_val a), <- (u8_byte_val b), H. reflexivity.
Qed.

Lemma eqb_eq (a b : byte) : Byte.eqb a b = true <-> a = b.
Proof.
  split; [apply Byte.byte_dec_bl | apply Byte.byte_dec_lb].
Qed.

Lemma eqb_neq (a b : byte) : Byte.eqb a b = false <-> a <> b.
Proof.
  split.
  - apply Byte.eqb_false.
  - intros H. destruct (Byte.eqb a b) eqn:E; [|reflexivity].
    apply eqb_eq in E. contradiction.
Qed.

(** The two offset bytes, read back as [(hi << 8) | lo]. *)
Lemma lor_shiftl_bytes (hi lo : Z) :
  (0 <= hi)%Z -> (0 <= lo < 256)%Z ->
  Z.lor (Z.shiftl hi 8) lo = (256 * hi + lo)%Z.
Proof.
  intros Hhi Hlo.
  pose proof (Z.add_lor_land (Z.shiftl hi 8) lo) as Hadd.
  assert (Hz : Z.land (Z.shiftl hi 8) lo = 0%Z).
  { apply Z.bits_inj'. intros k Hk.
    rewrite Z.land_spec, Z.bits_0.
    destruct (Z.ltb_spec k 8).
    - rewrite Z.shiftl_spec_low by lia. reflexivity.
    - replace lo with (lo mod 2 ^ 8)%Z by (apply Z.mod_small; lia).
      rewrite Z.mod_pow2_bits_high by lia. apply andb_false_r. }
  rewrite Hz in Hadd. rewrite Z.shiftl_mul_pow2 in * by lia.
  change (2 ^ 8)%Z with 256%Z in *. lia.
Qed.

Lemma offset_bytes_value (hi lo : byte) :
  u16 (Z.lor (Z.shiftl (byte_val hi) 8) (byte_val lo))
  = Z.of_nat (offset_of hi lo).
Proof.
  pose proof (byte_val_range hi). pose proof (byte_val_range lo).
  unfold u16, offset_of.
  rewrite lor_shiftl_bytes by lia.
  rewrite Z.mod_small by lia. lia.
Qed.

(** The offset bytes written by the encoder hold the offset. *)
Lemma offset_bytes_roundtrip (off : nat) :
  (Z.of_nat off < 65536)%Z ->
  let z := u16 (Z.of_nat off) in
  offset_of (u8 (Z.land (Z.shiftr z 8) 255)) (u8 (Z.land z 255)) = off.
Proof.
  intros Hoff z. unfold offset_of.
  assert (Hz : z = Z.of_nat off) by (unfold z, u16; apply Z.mod_small; lia).
  rewrite !byte_val_u8.
  change 255%Z with (Z.ones 8).
  rewrite !Z.land_ones by lia.
  rewrite Z.shiftr_div_pow2 by lia.
  change (2 ^ 8)%Z with 256%Z.
  rewrite !Z.mod_mod by lia.
  rewrite (Z.mod_small (z / 256) 256)
    by (split; [apply Z.div_pos; lia | apply Z.div_lt_upper_bound; lia]).
  rewrite <- Z.div_mod by lia. lia.
Qed.

Lemma length_byte_roundtrip (len : nat) :
  len <= 255 -> Z.to_nat (byte_val (u8 (Z.of_nat (Nat.min len 255)))) = len.
Proof.
  intros H. rewrite byte_val_u8, Nat.min_l by lia.
  rewrite Z.mod_small by lia. lia.
Qed.

(** ** Vectors *)

Lemma at_index_lt {A : Type} (v : list A) (i : nat) :
  i < length v -> exists a, nth_error v i = Some a /\ at_index v i = Ok a.
Proof.
  intros H. unfold at_index.
  destruct (nth_error v i) as [a|] eqn:E.
  - eauto.
  - apply nth_error_None in E. lia.
Qed.

Lemma at_index_Some {A : Type} (v : list A) (i : nat) (a : A) :
  nth_error v i = Some a -> at_index v i = Ok a.
Proof.
  intros H. unfold at_index. rewrite H. reflexivity.
Qed.

Lemma skipn_cons_inv {A : Type} (p : nat) (l r : list A) (a : A) :
  skipn p l = a :: r -> nth_error l p = Some a /\ skipn (S p) l = r.
Proof.
  revert l. induction p as [|p IH]; intros l H.
  - destruct l; simpl in H; inversion H; subst. auto.
  - destruct l as [|x l]; [discriminate|].
    simpl in H. apply IH in H. exact H.
Qed.

Lemma firstn_snoc {A : Type} (p : nat) (l : list A) (a : A) :
  nth_error l p = Some a -> firstn p l ++ [a] = firstn (S p) l.
Proof.
  revert l. induction p as [|p IH]; intros l H.
  - destruct l; simpl in H; inversion H; subst. reflexivity.
  - destruct l as [|x l]; [discriminate|].
    simpl in H. simpl. f_equal. apply IH, H.
Qed.

(** ** The decoder *)

(** The copy of a match reads inside the output, also where it overlaps
    the bytes it appends, and is the expansion of the specification. *)
Lemma copy_loop_expand (off start : nat) :
  1 <= off ->
  forall (k i : nat) (out : list byte),
    start + i + off = length out ->
    copy_loop k start i out = Ok (expand k off out).
Proof.
  intros Hoff. induction k as [|k IH]; intros i out Hlen; simpl.
  - reflexivity.
  - destruct (at_index_lt out (start + i)) as (b & Hb & ->); [lia|].
    simpl. replace (length out - off) with (start + i) by lia.
    rewrite (nth_error_nth _ _ x00 Hb).
    apply IH. rewrite length_app. simpl. lia.
Qed.

Lemma length_expand (k off : nat) (out : list byte) :
  length (expand k off out) = length out + k.
Proof.
  revert out. induction k as [|k IH]; intros out; simpl.
  - lia.
  - rewrite IH, length_app. simpl. lia.
Qed.

(** The loop of [decompress] at index [pos] is the decoder on the unread
    part of the input, as soon as the fuel covers that part. *)
Lemma decompress_loop_from (input : list byte) :
  forall (fuel pos : nat) (out : list byte),
    pos <= length input ->
    length input - pos <= fuel ->
    decompress_loop input fuel pos out = decode_from (skipn pos input) out.
Proof.
  induction fuel as [|fuel IH]; intros pos out Hpos Hfuel.
  - assert (pos = length input) by lia. subst pos.
    rewrite skipn_all. simpl. rewrite Nat.ltb_irrefl. reflexivity.
  - cbn [decompress_loop].
    destruct (Nat.ltb_spec pos (length input)) as [Hlt|Hge].
    2:{ rewrite skipn_all2 by lia. reflexivity. }
    destruct (skipn pos input) as [|flag s1] eqn:E.
    { apply (f_equal (@length byte)) in E. rewrite length_skipn in E.
      simpl in E. lia. }
    apply skipn_cons_inv in E. destruct E as [Hflag E1].
    rewrite (at_index_Some _ _ _ Hflag). cbn [bind decode_from].
    destruct (Byte.eqb flag x00).
    { destruct (Nat.leb_spec (length input) (S pos)) as [Hle|Hgt].
      - rewrite skipn_all2 in E1 by lia. subst s1. reflexivity.
      - destruct s1 as [|b s2].
        { apply (f_equal (@length byte)) in E1. rewrite length_skipn in E1.
          simpl in E1. lia. }
        apply skipn_cons_inv in E1. destruct E1 as [Hb E2].
        rewrite (at_index_Some _ _ _ Hb). cbn [bind].
        rewrite IH by lia. rewrite E2. reflexivity. }
    destruct (Byte.eqb flag x01); [|reflexivity].
    assert (Hs1 : length s1 = length input - S pos)
      by (rewrite <- E1; apply length_skipn).
    destruct (Nat.ltb_spec (length input) (S pos + 3)) as [Hshort|Hlong].
    { destruct s1 as [|hi [|lo [|len s2]]]; try reflexivity.
      simpl in Hs1. lia. }
    destruct s1 as [|hi [|lo [|len s2]]]; try (simpl in Hs1; lia).
    apply skipn_cons_inv in E1. destruct E1 as [Hhi E2].
    apply skipn_cons_inv in E2. destruct E2 as [Hlo E3].
    apply skipn_cons_inv in E3. destruct E3 as [Hlen E4].
    rewrite (at_index_Some _ _ _ Hhi). cbn [bind].
    replace (S pos + 1) with (S (S pos)) by lia.
    rewrite (at_index_Some _ _ _ Hlo). cbn [bind].
    replace (S pos + 2) with (S (S (S pos))) by lia.
    rewrite (at_index_Some _ _ _ Hlen). cbn [bind].
    destruct ((_ =? 0)%Z || _); [reflexivity|].
    destruct (copy_loop _ _ 0 out); cbn [bind]; try reflexivity.
    rewrite IH by lia. rewrite E4. reflexivity.
Qed.

Lemma decompress_from (input : list byte) :
  decompress input = decode_from input [].
Proof.
  unfold decompress. rewrite decompress_loop_from by lia. reflexivity.
Qed.

(** The test on the offset of a match, in terms of the offset held by its
    two bytes. *)
Lemma offset_test (hi lo : byte) (out : list byte) :
  let off := u16 (Z.lor (Z.shiftl (byte_val hi) 8) (byte_val lo)) in
  ((off =? 0) || (Z.of_nat (length out) <? off))%Z = true
  <-> offset_of hi lo = 0 \/ length out < offset_of hi lo.
Proof.
  intros off. unfold off. rewrite offset_bytes_value.
  rewrite orb_true_iff, Z.eqb_eq, Z.ltb_lt. lia.
Qed.

(** The decoder on a stream that starts with a literal or a match. *)
Lemma decode_from_x00 (b : byte) (s out : list byte) :
  decode_from (x00 :: b :: s) out = decode_from s (out ++ [b]).
Proof. reflexivity. Qed.

Lemma decode_from_x01 (hi lo len : byte) (s out : list byte) :
  decode_from (x01 :: hi :: lo :: len :: s) out
  = let off := u16 (Z.lor (Z.shiftl (byte_val hi) 8) (byte_val lo)) in
    if ((off =? 0) || (Z.of_nat (length out) <? off))%Z
    then Throw invalid_offset
    else
      out' <- copy_loop (Z.to_nat (byte_val len))
                (length out - Z.to_nat off) 0 out ;;
      decode_from s out'.
Proof. reflexivity. Qed.

Lemma decode_from_bad_offset (hi lo len : byte) (s out : list byte) :
  offset_of hi lo = 0 \/ length out < offset_of hi lo ->
  decode_from (x01 :: hi :: lo :: len :: s) out = Throw invalid_offset.
Proof.
  intros H. rewrite decode_from_x01. cbv zeta.
  apply offset_test in H. cbv zeta in H. rewrite H. reflexivity.
Qed.

(** One match token, decoded. *)
Lemma decode_from_match (hi lo len : byte) (s out : list byte) :
  1 <= offset_of hi lo <= length out ->
  decode_from (x01 :: hi :: lo :: len :: s) out
  = decode_from s (expand (Z.to_nat (byte_val len)) (offset_of hi lo) out).
Proof.
  intros Hoff. rewrite decode_from_x01. cbv zeta.
  destruct ((_ =? 0)%Z || _) eqn:E.
  { apply offset_test in E. lia. }
  rewrite offset_bytes_value, Nat2Z.id.
  rewrite (copy_loop_expand (offset_of hi lo)) by lia.
  reflexivity.
Qed.

Lemma decode_from_corrupt (s out : list byte) :
  corrupt_stream out s ->
  exists e, decode_from s out = Throw e /\ kind e = CorruptionError.
Proof.
  induction 1 as [out|out payload Hp|out flag rest H0 H1|out hi lo len rest Ho
                 |out b rest _ IH|out hi lo len rest Ho _ IH].
  - exists corrupt_literal. auto.
  - exists corrupt_match. split; [|reflexivity].
    destruct payload as [|a [|b [|c r]]]; try reflexivity. simpl in Hp. lia.
  - exists unknown_token_flag. split; [|reflexivity].
    simpl. apply eqb_neq in H0, H1. rewrite H0, H1. reflexivity.
  - exists invalid_offset. split; [|reflexivity].
    apply decode_from_bad_offset, Ho.
  - exact IH.
  - rewrite decode_from_match by exact Ho. exact IH.
Qed.

(** The decoder returns or throws; when it throws, the stream is one the
    specification calls corrupt. *)
Lemma decode_from_total :
  forall (m : nat) (s out : list byte),
    length s <= m ->
    (exists o, decode_from s out = Ok o)
    \/ (exists e, decode_from s out = Throw e /\ corrupt_stream out s).
Proof.
  induction m as [|m IH]; intros s out Hm.
  - destruct s; [|simpl in Hm; lia]. left. exists out. reflexivity.
  - destruct s as [|flag s]; [left; exists out; reflexivity|].
    simpl in Hm.
    destruct (Byte.eqb flag x00) eqn:E0.
    { apply eqb_eq in E0. subst flag.
      destruct s as [|b s].
      - right. exists corrupt_literal. split; [reflexivity|constructor].
      - simpl in Hm.
        destruct (IH s (out ++ [b])) as [[o Ho]|(e & He & Hc)]; [lia| |].
        + left. exists o. exact Ho.
        + right. exists e. split; [exact He|].
          apply corrupt_after_literal, Hc. }
    destruct (Byte.eqb flag x01) eqn:E1.
    2:{ right. exists unknown_token_flag. split.
        - simpl. rewrite E0, E1. reflexivity.
        - apply eqb_neq in E0, E1. apply flag_unknown; assumption. }
    apply eqb_eq in E1. subst flag.
    destruct s as [|hi [|lo [|len s]]];
      try (right; exists corrupt_match; split;
           [reflexivity | apply match_cut_short; simpl; lia]).
    destruct (Nat.eq_dec (offset_of hi lo) 0) as [Hz|Hnz].
    { right. exists invalid_offset. split.
      - apply decode_from_bad_offset. left. exact Hz.
      - apply offset_invalid. left. exact Hz. }
    destruct (Nat.ltb_spec (length out) (offset_of hi lo)) as [Hbig|Hok].
    { right. exists invalid_offset. split.
      - apply decode_from_bad_offset. right. exact Hbig.
      - apply offset_invalid. right. exact Hbig. }
    rewrite decode_from_match by lia.
    simpl in Hm.
    destruct (IH s (expand (Z.to_nat (byte_val len)) (offset_of hi lo) out))
      as [[o Ho]|(e & He & Hc)]; [lia| |].
    + left. exists o. exact Ho.
    + right. exists e. split; [exact He|].
      apply corrupt_after_match; [lia | exact Hc].
Qed.

(** ** The match search *)

Section Search.

Variable c : LZ77.
Variable input : list byte.

Lemma match_len_inv (i pos : nat) :
  i < pos ->
  forall (k len : nat),
    pos + len <= length input ->
    (forall j, j < len -> nth_error input (i + j) = nth_error input (pos + j)) ->
    exists L,
      match_len input i pos k len = Ok L
      /\ len <= L <= len + k
      /\ pos + L <= length input
      /\ (forall j, j < L -> nth_error input (i + j) = nth_error input (pos + j))
      /\ (L = len + k \/ pos + L = length input
          \/ nth_error input (i + L) <> nth_error input (pos + L)).
Proof.
  intros Hi. induction k as [|k IH]; intros len Hlen Hagree.
  - exists len. cbn [match_len]. repeat split; try lia; auto.
  - cbn [match_len].
    destruct (Nat.ltb_spec (pos + len) (length input)) as [Hlt|Hge].
    2:{ exists len. repeat split; try lia; auto. }
    destruct (at_index_lt input (i + len)) as (a & Ha & ->); [lia|].
    destruct (at_index_lt input (pos + len)) as (b & Hb & ->); [lia|].
    cbn [bind].
    destruct (Byte.eqb a b) eqn:E.
    + apply eqb_eq in E. subst b.
      destruct (IH (S len)) as (L & HL & Hr & Hn & Hag & Hstop); [lia| |].
      { intros j Hj. destruct (Nat.eq_dec j len) as [->|Hne].
        - congruence.
        - apply Hagree. lia. }
      exists L. repeat split; try lia; auto.
      destruct Hstop as [Hs|[Hs|Hs]]; [left; lia|auto|auto].
    + apply eqb_neq in E. exists len. repeat split; try lia; auto.
      right. right. rewrite Ha, Hb. congruence.
Qed.

(** The inner loop returns the longest match of its candidate. *)
Lemma mlen_spec (pos i : nat) :
  i < pos -> pos <= length input ->
  match_len input i pos (lookahead c) 0 = Ok (mlen c input pos i)
  /\ match_at c input pos i (mlen c input pos i)
  /\ forall L, match_at c input pos i L -> L <= mlen c input pos i.
Proof.
  intros Hi Hpos. unfold mlen.
  destruct (match_len_inv i pos Hi (lookahead c) 0)
    as (L & -> & Hr & Hn & Hag & Hstop); [lia|intros j Hj; lia|].
  split; [reflexivity|]. split.
  - unfold match_at. repeat split; try lia; auto.
  - intros L' (Hl & Hn' & Hag').
    destruct (Nat.le_gt_cases L' L) as [Hle|Hgt]; [exact Hle|].
    exfalso. destruct Hstop as [Hs|[Hs|Hs]]; try lia.
    apply Hs. apply Hag'. exact Hgt.
Qed.

Lemma mlen_le_lookahead (pos i : nat) :
  i < pos -> pos <= length input -> mlen c input pos i <= lookahead c.
Proof.
  intros Hi Hpos. destruct (mlen_spec pos i Hi Hpos) as (_ & (H & _) & _).
  exact H.
Qed.

(** The candidate loop keeps [best_in]. *)
Lemma search_spec (pos lo : nat) :
  pos <= length input ->
  forall (k i best_off best_len : nat),
    i + k = pos -> lo <= i ->
    best_in c input pos lo i best_off best_len ->
    exists bo bl,
      search c input pos k i best_off best_len = Ok (bo, bl)
      /\ best_in c input pos lo pos bo bl.
Proof.
  intros Hpos. induction k as [|k IH]; intros i bo bl Hik Hlo Hbest.
  - replace i with pos in Hbest by lia. exists bo, bl. split; [reflexivity|exact Hbest].
  - cbn [search].
    destruct (mlen_spec pos i) as (-> & _ & _); [lia|lia|].
    cbn [bind].
    set (L := mlen c input pos i).
    assert (HL : L <= lookahead c) by (apply mlen_le_lookahead; lia).
    destruct Hbest as [Hmax Hfirst].
    assert (Hnext : best_in c input pos lo (S i)
                      (if bl <? L then pos - i else bo)
                      (if bl <? L then L else bl)).
    { destruct (Nat.ltb_spec bl L) as [Hlt|Hge].
      - split.
        + intros j Hj. destruct (Nat.eq_dec j i) as [->|Hne]; [fold L; lia|].
          specialize (Hmax j). lia.
        + right. exists i. repeat split; try lia.
          intros j' Hj'. specialize (Hmax j'). lia.
      - split.
        + intros j Hj. destruct (Nat.eq_dec j i) as [->|Hne]; [fold L; lia|].
          apply Hmax. lia.
        + destruct Hfirst as [H0|(j & Hj & Hrest)]; [left; exact H0|].
          right. exists j. split; [lia|exact Hrest]. }
    destruct (bl <? L).
    + destruct (Nat.eqb_spec L (lookahead c)) as [Heq|Hne].
      * exists (pos - i), L. split; [reflexivity|].
        destruct Hnext as [_ Hf]. split.
        -- intros j Hj. rewrite Heq. apply mlen_le_lookahead; lia.
        -- destruct Hf as [H0|(j & Hj & Hrest)]; [left; exact H0|].
           right. exists j. split; [lia|exact Hrest].
      * apply IH; [lia|lia|exact Hnext].
    + destruct (Nat.eqb_spec bl (lookahead c)) as [Heq|Hne].
      * exists bo, bl. split; [reflexivity|].
        destruct Hnext as [_ Hf]. split.
        -- intros j Hj. rewrite Heq. apply mlen_le_lookahead; lia.
        -- destruct Hf as [H0|(j & Hj & Hrest)]; [left; exact H0|].
           right. exists j. split; [lia|exact Hrest].
      * apply IH; [lia|lia|exact Hnext].
Qed.

(** The search of a position returns the first longest candidate of its
    window. *)
Lemma find_best_spec (pos : nat) :
  pos <= length input ->
  exists bo bl,
    find_best c input pos = Ok (bo, bl)
    /\ best_in c input pos (pos - window_size c) pos bo bl.
Proof.
  intros Hpos. unfold find_best.
  replace (if window_size c <? pos then pos - window_size c else 0)
    with (pos - window_size c)
    by (destruct (Nat.ltb_spec (window_size c) pos); lia).
  apply search_spec; try lia.
  split.
  - intros j Hj. lia.
  - left. split; reflexivity.
Qed.

End Search.

(** ** The encoder *)

Section Encoder.

Variable c : LZ77.
Variable input : list byte.

(** A best pair that is not the initial one comes from a candidate of
    the window. *)
Lemma best_in_candidate (pos bo bl : nat) :
  pos <= length input ->
  best_in c input pos (pos - window_size c) pos bo bl ->
  0 < bl ->
  exists i, in_window c pos i /\ bo = pos - i /\ mlen c input pos i = bl
            /\ match_at c input pos i bl.
Proof.
  intros Hpos [_ [[H0 _]|(i & Hi & Hbo & Hm & _)]] Hbl; [lia|].
  exists i. repeat split; try (unfold in_window; lia); auto.
  - destruct (mlen_spec c input pos i) as (_ & (H & _) & _); [lia|lia|].
    rewrite Hm in H. exact H.
  - destruct (mlen_spec c input pos i) as (_ & (_ & H & _) & _); [lia|lia|].
    rewrite Hm in H. exact H.
  - destruct (mlen_spec c input pos i) as (_ & (_ & _ & H) & _); [lia|lia|].
    rewrite Hm in H. exact H.
Qed.

(** The two ways an iteration of the outer loop goes. *)
Lemma compress_step_cases (pos : nat) :
  pos < length input ->
  exists bo bl,
    find_best c input pos = Ok (bo, bl)
    /\ best_in c input pos (pos - window_size c) pos bo bl
    /\ (3 <= bl
        /\ compress_step c input pos = Ok (match_bytes bo bl, pos + bl)
        \/ bl < 3
           /\ exists b, nth_error input pos = Some b
                        /\ compress_step c input pos = Ok ([x00; b], S pos)).
Proof.
  intros Hpos.
  destruct (find_best_spec c input pos) as (bo & bl & Hf & Hbest); [lia|].
  exists bo, bl. split; [exact Hf|]. split; [exact Hbest|].
  unfold compress_step. rewrite Hf. cbn [bind].
  destruct (Nat.leb_spec 3 bl) as [Hge|Hlt].
  - left. split; [exact Hge|reflexivity].
  - right. split; [exact Hlt|].
    destruct (at_index_lt input pos Hpos) as (b & Hb & ->).
    exists b. split; [exact Hb|reflexivity].
Qed.

(** The outer loop returns, and what it appends is the token run. *)
Lemma compress_loop_trace :
  forall (fuel pos : nat) (out : list byte),
    pos <= length input ->
    length input - pos <= fuel ->
    exists ts,
      compress_loop c input fuel pos out
      = Ok (out ++ flat_map token_bytes ts)
      /\ compress_trace c input pos ts.
Proof.
  induction fuel as [|fuel IH]; intros pos out Hpos Hfuel.
  - assert (pos = length input) by lia. subst pos.
    exists []. cbn [compress_loop]. rewrite Nat.ltb_irrefl.
    rewrite app_nil_r. split; [reflexivity|constructor].
  - cbn [compress_loop].
    destruct (Nat.ltb_spec pos (length input)) as [Hlt|Hge].
    2:{ assert (pos = length input) by lia. subst pos.
        exists []. rewrite app_nil_r. split; [reflexivity|constructor]. }
    destruct (compress_step_cases pos Hlt)
      as (bo & bl & Hf & Hbest & [[Hbl Hs]|(Hbl & b & Hb & Hs)]);
      rewrite Hs; cbn [bind].
    + destruct (best_in_candidate pos bo bl) as (i & _ & _ & _ & Hm);
        [lia|exact Hbest|lia|].
      destruct Hm as (_ & Hn & _).
      destruct (IH (pos + bl) (out ++ match_bytes bo bl))
        as (ts & Hts & Htr); [lia|lia|].
      exists (Match bo bl :: ts). split.
      * rewrite Hts, <- app_assoc. reflexivity.
      * eapply trace_match; eauto.
    + destruct (IH (S pos) (out ++ [x00; b])) as (ts & Hts & Htr);
        [lia|lia|].
      exists (Literal b :: ts). split.
      * rewrite Hts, <- app_assoc. reflexivity.
      * eapply trace_literal; eauto.
Qed.

Lemma compress_trace_exists :
  exists ts,
    compress c input = Ok (flat_map token_bytes ts)
    /\ compress_trace c input 0 ts.
Proof.
  unfold compress.
  destruct (compress_loop_trace (length input) 0 []) as (ts & H & Ht);
    [lia|lia|].
  exists ts. split; [exact H|exact Ht].
Qed.

(** The tokens of a run stand for the rest of the input. *)
Lemma compress_trace_span (pos : nat) (ts : list token) :
  compress_trace c input pos ts ->
  pos + list_sum (map span ts) = length input.
Proof.
  induction 1; unfold list_sum in *; cbn [map fold_right span] in *; lia.
Qed.

(** Two output bytes for a literal, four for the three or more input
    bytes of a match. *)
Lemma compress_trace_size (pos : nat) (ts : list token) :
  compress_trace c input pos ts ->
  length (flat_map token_bytes ts) <= 2 * (length input - pos)
  /\ (ts = [] <-> pos = length input).
Proof.
  induction 1 as [|pos bo bl b ts Hpos Hf Hbl Hb Htr [IH _]
                  |pos bo bl ts Hpos Hf Hbl Htr [IH _]].
  - split; [simpl; lia|tauto].
  - split.
    + cbn [flat_map token_bytes]. rewrite length_app. simpl length. lia.
    + split; [discriminate|lia].
  - split.
    + cbn [flat_map token_bytes]. rewrite length_app.
      unfold match_bytes. simpl length.
      apply compress_trace_span in Htr. lia.
    + split; [discriminate|lia].
Qed.

(** The fields of the matches of a run are in range. *)
Lemma compress_trace_valid (pos : nat) (ts : list token) :
  lookahead c <= 255 ->
  compress_trace c input pos ts ->
  Forall (valid_token c) ts.
Proof.
  intros Hl. induction 1 as [|pos bo bl b ts Hpos Hf Hbl Hb Htr IH
                            |pos bo bl ts Hpos Hf Hbl Htr IH].
  - constructor.
  - constructor; [exact I|exact IH].
  - constructor; [|exact IH].
    destruct (find_best_spec c input pos) as (bo' & bl' & Hf' & Hbest);
      [lia|].
    rewrite Hf in Hf'. inversion Hf'; subst bo' bl'.
    destruct (best_in_candidate pos bo bl) as (i & Hi & Hbo & _ & Hm);
      [lia|exact Hbest|lia|].
    destruct Hm as (Hlook & _). unfold in_window in Hi.
    cbn [valid_token]. lia.
Qed.

(** Copying a match that the input has extends a prefix of the input. *)
Lemma expand_firstn (off : nat) :
  forall (k p : nat),
    1 <= off <= p ->
    p + k <= length input ->
    (forall q, p <= q < p + k ->
               nth_error input (q - off) = nth_error input q) ->
    expand k off (firstn p input) = firstn (p + k) input.
Proof.
  induction k as [|k IH]; intros p Hoff Hlen Hper.
  - rewrite Nat.add_0_r. reflexivity.
  - cbn [expand].
    rewrite length_firstn, Nat.min_l by lia.
    destruct (at_index_lt input p) as (b & Hb & _); [lia|].
    assert (Hsrc : nth_error (firstn p input) (p - off) = Some b).
    { rewrite nth_error_firstn.
      destruct (Nat.ltb_spec (p - off) p); [|lia].
      rewrite Hper by lia. exact Hb. }
    rewrite (nth_error_nth _ _ x00 Hsrc).
    rewrite (firstn_snoc _ _ _ Hb).
    rewrite IH; [f_equal; lia|lia|lia|].
    intros q Hq. apply Hper. lia.
Qed.

(** Decoding the tokens of a run rebuilds the input. *)
Lemma compress_trace_decode (pos : nat) (ts : list token) :
  (Z.of_nat (window_size c) < 65536)%Z ->
  lookahead c <= 255 ->
  compress_trace c input pos ts ->
  forall rest,
    decode_from (flat_map token_bytes ts ++ rest) (firstn pos input)
    = decode_from rest input.
Proof.
  intros Hw Hl.
  induction 1 as [|pos bo bl b ts Hpos Hf Hbl Hb Htr IH
                  |pos bo bl ts Hpos Hf Hbl Htr IH]; intros rest.
  - rewrite firstn_all. reflexivity.
  - cbn [flat_map token_bytes]. rewrite <- app_assoc.
    cbn [app]. rewrite decode_from_x00, (firstn_snoc _ _ _ Hb).
    apply IH.
  - cbn [flat_map token_bytes]. rewrite <- app_assoc.
    destruct (find_best_spec c input pos) as (bo' & bl' & Hf' & Hbest);
      [lia|].
    rewrite Hf in Hf'. inversion Hf'; subst bo' bl'.
    destruct (best_in_candidate pos bo bl) as (i & Hi & Hbo & _ & Hm);
      [lia|exact Hbest|lia|].
    destruct Hm as (Hlook & Hn & Hag). unfold in_window in Hi.
    unfold match_bytes. cbn [app].
    assert (Hoff : offset_of
                     (u8 (Z.land (Z.shiftr (u16 (Z.of_nat bo)) 8) 255))
                     (u8 (Z.land (u16 (Z.of_nat bo)) 255)) = bo)
      by (apply offset_bytes_roundtrip; lia).
    rewrite decode_from_match
      by (rewrite Hoff, length_firstn, Nat.min_l; lia).
    rewrite Hoff, length_byte_roundtrip by lia.
    rewrite expand_firstn; [apply IH|lia|lia|].
    intros q Hq. replace (q - bo) with (i + (q - pos)) by lia.
    replace q with (pos + (q - pos)) at 2 by lia.
    apply Hag. lia.
Qed.

End Encoder.

(** ** The codec with its default parameters *)

Lemma codec_window_fits : (Z.of_nat (window_size codec) < 65536)%Z.
Proof. reflexivity. Qed.

Lemma codec_lookahead_fits : lookahead codec <= 255.
Proof. apply Nat.le_refl. Qed.

Lemma token_bytes_not_nil (t : token) : token_bytes t <> [].
Proof. destruct t; discriminate. Qed.

Lemma flat_map_token_bytes_nil (ts : list token) :
  flat_map token_bytes ts = [] <-> ts = [].
Proof.
  split; [|intros ->; reflexivity].
  destruct ts as [|t ts]; [reflexivity|].
  cbn [flat_map]. intros H. apply app_eq_nil in H. destruct H as [H _].
  exfalso. exact (token_bytes_not_nil t H).
Qed.

(** The fields a decoder reads in the bytes of a match are those the
    encoder found: the casts to [u16] and [u8] lose nothing. *)
Lemma match_bytes_fields (bo bl : nat) :
  (Z.of_nat bo < 65536)%Z -> bl <= 255 ->
  exists hi lo l,
    match_bytes bo bl = [x01; hi; lo; l]
    /\ offset_of hi lo = bo /\ Z.to_nat (byte_val l) = bl.
Proof.
  intros Hbo Hbl. unfold match_bytes.
  eexists _, _, _. split; [reflexivity|]. split.
  - apply offset_bytes_roundtrip. exact Hbo.
  - apply length_byte_roundtrip. exact Hbl.
Qed.

(** The encoder returns and the decoder maps what it returns back to the
    input. *)
Lemma compress_decompress (input : list byte) :
  exists out, compress codec input = Ok out /\ decompress out = Ok input.
Proof.
  destruct (compress_trace_exists codec input) as (ts & Hc & Htr).
  exists (flat_map token_bytes ts). split; [exact Hc|].
  rewrite decompress_from.
  pose proof (compress_trace_decode codec input 0 ts codec_window_fits
                codec_lookahead_fits Htr []) as H.
  rewrite app_nil_r in H. exact H.
Qed.

Lemma compress_size (input : list byte) :
  exists out,
    compress codec input = Ok out
    /\ length out <= 2 * length input
    /\ (out = [] <-> input = []).
Proof.
  destruct (compress_trace_exists codec input) as (ts & Hc & Htr).
  exists (flat_map token_bytes ts). split; [exact Hc|].
  destruct (compress_trace_size codec input 0 ts Htr) as [Hsz Hnil].
  split; [lia|].
  rewrite flat_map_token_bytes_nil, Hnil.
  split.
  - intros H. symmetry in H. apply length_zero_iff_nil in H. exact H.
  - intros ->. reflexivity.
Qed.

(** A candidate with a match of some length has the shorter ones too. *)
Lemma match_at_shorter (c : LZ77) (input : list byte) (pos i L L' : nat) :
  L' <= L -> match_at c input pos i L -> match_at c input pos i L'.
Proof.
  intros Hle (Hl & Hn & Hag). unfold match_at.
  repeat split; try lia. intros j Hj. apply Hag. lia.
Qed.

(** [C2] Decoding fails exactly on the corrupt streams of the
    specification -- a stream that ends inside a token, a flag byte other
    than [0x00] and [0x01], a match whose offset is 0 or exceeds the
    length of the output decoded so far -- and then with a Corruption
    error; on every other stream it returns. *)
Theorem decompress_fails_iff_corrupt (s : list byte) :
  ((exists e, decompress s = Throw e) <-> corrupt_stream [] s)
  /\ (forall e, decompress s = Throw e -> kind e = CorruptionError)
  /\ ((exists out, decompress s = Ok out) <-> ~ corrupt_stream [] s).
Proof.
  rewrite decompress_from.
  assert (Hthrow : corrupt_stream [] s ->
                   exists e, decode_from s [] = Throw e
                             /\ kind e = CorruptionError)
    by apply decode_from_corrupt.
  pose proof (decode_from_total (length s) s [] (Nat.le_refl _)) as Htotal.
  split; [|split].
  - split.
    + intros [e He]. destruct Htotal as [[o Ho]|(e' & _ & Hc)]; [|exact Hc].
      congruence.
    + intros Hc. destruct (Hthrow Hc) as (e & He & _). exists e. exact He.
  - intros e He. destruct Htotal as [[o Ho]|(e' & He' & Hc)]; [congruence|].
    destruct (Hthrow Hc) as (e'' & He'' & Hk). congruence.
  - split.
    + intros [o Ho] Hc. destruct (Hthrow Hc) as (e & He & _). congruence.
    + intros Hn. destruct Htotal as [Hok|(e & _ & Hc)]; [exact Hok|].
      contradiction.
Qed.

(** The examples of the specification: a stream cut inside a token, the
    flag [0x02], and a match that reaches before the start of the output. *)
Example decompress_corrupt_examples :
  decompress [x00] = Throw corrupt_literal
  /\ decompress [x00; x41; x01; x00] = Throw corrupt_match
  /\ decompress [x02] = Throw unknown_token_flag
  /\ decompress [x00; x41; x01; x00; x02; x03] = Throw invalid_offset
  /\ decompress [x00; x41; x01; x00; x00; x03] = Throw invalid_offset
  /\ decompress [x00; x41; x01; x00; x01; x03] = Ok [x41; x41; x41; x41].
Proof. repeat split; reflexivity. Qed.

(** On [abcXabcYabc] the last three bytes occur 8 and 4 positions back;
    the encoder emits the offset 8. *)
Lemma tie_break_counterexample :
  let input := bytes_of "abcXabcYabc" in
  compress codec input
  = Ok (flat_map token_bytes
          [Literal "a"; Literal "b"; Literal "c"; Literal "X"; Match 4 3;
           Literal "Y"; Match 8 3])
  /\ in_window codec 8 4
  /\ mlen codec input 8 4 = 3
  /\ find_best codec input 8 = Ok (8, 3)
  /\ ~ prefers_smallest_offset codec input.
Proof.
  cbv zeta.
  assert (Hw : in_window codec 8 4) by (unfold in_window; simpl; lia).
  repeat split; try reflexivity; try exact (proj1 Hw); try exact (proj2 Hw).
  intros H.
  specialize (H 8 8 3). cbv beta in H.
  assert (Hle : 8 <= 8 - 4).
  { apply H; try reflexivity; try exact Hw; simpl; lia. }
  lia.
Qed.

(** [C3] Among the candidates of the window that have the emitted
    (maximal) length, the encoder emits the one with the largest offset:
    the scan starts at the window floor, the farthest candidate, and
    replaces the best match only on a strictly greater length. *)
Theorem tie_break_largest_offset
    (input : list byte) (pos best_off best_len : nat) :
  pos < length input ->
  find_best codec input pos = Ok (best_off, best_len) ->
  3 <= best_len ->
  (exists i0, in_window codec pos i0 /\ best_off = pos - i0
              /\ mlen codec input pos i0 = best_len)
  /\ forall i, in_window codec pos i ->
       mlen codec input pos i <= best_len
       /\ (mlen codec input pos i = best_len -> pos - i <= best_off).
Proof.
  intros Hpos Hf Hbl.
  destruct (find_best_spec codec input pos) as (bo & bl & Hf' & Hbest);
    [lia|].
  rewrite Hf in Hf'. inversion Hf'; subst bo bl.
  destruct Hbest as [Hmax [[H0 _]|(j & Hj & Hbo & Hm & _ & Hfirst)]]; [lia|].
  split.
  - exists j. unfold in_window. repeat split; try lia; auto.
  - intros i Hi. unfold in_window in Hi. split.
    + apply Hmax. lia.
    + intros Hlen. destruct (Nat.le_gt_cases j i) as [Hle|Hgt]; [lia|].
      specialize (Hfirst i). lia.
Qed.

Lemma tie_break_largest_offset_witness :
  let input := bytes_of "abcXabcYabc" in
  (exists i0, in_window codec 8 i0 /\ 8 = 8 - i0
              /\ mlen codec input 8 i0 = 3)
  /\ forall i, in_window codec 8 i ->
       mlen codec input 8 i <= 3
       /\ (mlen codec input 8 i = 3 -> 8 - i <= 8).
Proof.
  cbv zeta.
  apply (tie_break_largest_offset (bytes_of "abcXabcYabc") 8 8 3).
  - simpl. lia.
  - reflexivity.
  - lia.
Defined.

(** [C4] Every match the encoder emits has its offset in
    [[1, window_size]] and its length in [[3, 255]], and its bytes hold
    these two fields; where no candidate of the window has a match of
    length 3, the encoder emits the literal of the byte at the position
    and moves on by 1; after a match it moves on by the length of the
    match. *)
Theorem encode_tokens_valid (input : list byte) :
  (exists ts,
      compress codec input = Ok (flat_map token_bytes ts)
      /\ compress_trace codec input 0 ts
      /\ Forall (valid_token codec) ts)
  /\ forall pos, pos < length input ->
       exists bo bl,
         find_best codec input pos = Ok (bo, bl)
         /\ (3 <= bl <= 255 /\ 1 <= bo <= window_size codec
             /\ (exists i, in_window codec pos i /\ bo = pos - i
                           /\ match_at codec input pos i bl)
             /\ (exists hi lo l,
                    token_bytes (Match bo bl) = [x01; hi; lo; l]
                    /\ offset_of hi lo = bo /\ Z.to_nat (byte_val l) = bl)
             /\ compress_step codec input pos
                = Ok (token_bytes (Match bo bl), pos + bl)
             \/ (forall i, in_window codec pos i ->
                           ~ match_at codec input pos i 3)
                /\ exists b,
                     nth_error input pos = Some b
                     /\ compress_step codec input pos
                        = Ok (token_bytes (Literal b), S pos)).
Proof.
  split.
  - destruct (compress_trace_exists codec input) as (ts & Hc & Htr).
    exists ts. split; [exact Hc|]. split; [exact Htr|].
    apply (compress_trace_valid codec input 0 ts codec_lookahead_fits Htr).
  - intros pos Hpos.
    destruct (compress_step_cases codec input pos Hpos)
      as (bo & bl & Hf & Hbest & [[Hbl Hs]|(Hbl & b & Hb & Hs)]);
      exists bo, bl; (split; [exact Hf|]).
    + left.
      destruct (best_in_candidate codec input pos bo bl)
        as (i & Hi & Hbo & _ & Hm); [lia|exact Hbest|lia|].
      pose proof Hm as (Hlook & _).
      pose proof codec_lookahead_fits as Hl.
      pose proof codec_window_fits as Hw.
      assert (Hboz : (Z.of_nat bo < 65536)%Z)
        by (unfold in_window in Hi; lia).
      split; [lia|]. split; [unfold in_window in Hi; lia|].
      split; [exists i; auto|]. split; [|exact Hs].
      apply match_bytes_fields; [exact Hboz|lia].
    + right. split.
      * intros i Hi Hm. destruct Hbest as [Hmax _].
        unfold in_window in Hi.
        destruct (mlen_spec codec input pos i) as (_ & _ & Hlongest);
          [lia|lia|].
        specialize (Hlongest 3 Hm). specialize (Hmax i). lia.
      * exists b. split; [exact Hb|exact Hs].
Qed.

(** [C9] The output of the encoder is at most twice as long as its
    input -- two bytes for the one input byte of a literal, four for the
    three or more of a match -- and is empty exactly for the empty
    input. *)
Theorem compress_output_bound (input : list byte) :
  exists out,
    compress codec input = Ok out
    /\ length out <= 2 * length input
    /\ (out = [] <-> input = []).
Proof.
  exact (compress_size input).
Qed.

(** [C10] The index reads of the codec stay inside their vectors.  Once
    the offset of a match is between 1 and the length of the output, the
    copy reads only bytes the output has when they are read, for every
    length, also beyond the offset; so the decoder returns or throws on
    every stream.  The reads of the match search are inside the input, so
    the search and the encoder return. *)
Theorem codec_reads_in_bounds :
  (forall (out : list byte) (off len : nat),
      1 <= off <= length out ->
      exists out',
        copy_loop len (length out - off) 0 out = Ok out'
        /\ out' = expand len off out
        /\ length out' = length out + len)
  /\ (forall s : list byte,
        (exists out, decompress s = Ok out)
        \/ (exists e, decompress s = Throw e))
  /\ (forall (input : list byte) (pos i : nat),
        i < pos -> pos <= length input ->
        exists L, match_len input i pos (lookahead codec) 0 = Ok L)
  /\ (forall (input : list byte) (pos : nat),
        pos <= length input ->
        exists bo bl, find_best codec input pos = Ok (bo, bl))
  /\ (forall input : list byte, exists out, compress codec input = Ok out).
Proof.
  split; [|split; [|split; [|split]]].
  - intros out off len Hoff.
    exists (expand len off out). split; [|split; [reflexivity|]].
    + apply copy_loop_expand; lia.
    + apply length_expand.
  - intros s. rewrite decompress_from.
    destruct (decode_from_total (length s) s [] (Nat.le_refl _))
      as [Hok|(e & He & _)]; [left; exact Hok|right; exists e; exact He].
  - intros input pos i Hi Hpos.
    destruct (mlen_spec codec input pos i Hi Hpos) as (H & _).
    eexists. exact H.
  - intros input pos Hpos.
    destruct (find_best_spec codec input pos Hpos) as (bo & bl & H & _).
    exists bo, bl. exact H.
  - intros input.
    destruct (compress_decompress input) as (out & H & _).
    exists out. exact H.
Qed.

(** ** Integers and records in the container *)

Lemma length_le_bytes (w : nat) (v : Z) : length (le_bytes w v) = w.
Proof.
  revert v. induction w as [|w IH]; intros v; simpl; [|rewrite IH];
    reflexivity.
Qed.

Lemma le_value_le_bytes (w : nat) (v : Z) :
  le_value (le_bytes w v) = (v mod 256 ^ Z.of_nat w)%Z.
Proof.
  revert v. induction w as [|w IH]; intros v.
  - simpl. rewrite Z.mod_1_r. reflexivity.
  - cbn [le_bytes le_value]. rewrite byte_val_u8, IH.
    rewrite Nat2Z.inj_succ, Z.pow_succ_r by lia.
    rewrite Z.rem_mul_r by lia. reflexivity.
Qed.

Lemma le_value_u32 (v : Z) :
  (0 <= v < 4294967296)%Z -> le_value (le_bytes 4 v) = v.
Proof.
  intros H. rewrite le_value_le_bytes.
  change (256 ^ Z.of_nat 4)%Z with 4294967296%Z. apply Z.mod_small, H.
Qed.

Lemma le_value_u64 (v : Z) :
  (0 <= v < 18446744073709551616)%Z -> le_value (le_bytes 8 v) = v.
Proof.
  intros H. rewrite le_value_le_bytes.
  change (256 ^ Z.of_nat 8)%Z with 18446744073709551616%Z.
  apply Z.mod_small, H.
Qed.

Lemma fread_app (size : nat) (a b : list byte) :
  length a = size -> fread size (a ++ b) = (a, b).
Proof.
  intros <-. unfold fread.
  rewrite firstn_app, skipn_app, firstn_all, skipn_all, Nat.sub_diag.
  simpl. rewrite app_nil_r. reflexivity.
Qed.

(** The decoder never faults or runs out of fuel. *)
Lemma decompress_total (s : list byte) :
  (exists out, decompress s = Ok out) \/ (exists e, decompress s = Throw e).
Proof.
  rewrite decompress_from.
  destruct (decode_from_total (length s) s [] (Nat.le_refl _))
    as [Hok|(e & He & _)]; [left; exact Hok|right; exists e; exact He].
Qed.

(** Reading back records whose token streams decode: the decoded bytes
    are appended in record order, whatever the declared sizes are. *)
Lemma decompress_records_decoded (rs : list (Z * list byte)) :
  Forall (fun r => (Z.of_nat (length (snd r)) < 18446744073709551616)%Z
                   /\ exists d, decompress (snd r) = Ok d) rs ->
  forall rest out,
    decompress_records (length rs) (flat_map record_bytes rs ++ rest) out
    = (out ++ concat (map (fun r => decoded (snd r)) rs), Ok tt).
Proof.
  induction 1 as [|[orig comp] rs [Hlen [d Hd]] _ IH]; intros rest out.
  - simpl. rewrite app_nil_r. reflexivity.
  - cbn [length flat_map map concat decompress_records].
    unfold record_bytes at 1. cbn [fst snd] in *.
    rewrite <- !app_assoc.
    rewrite (fread_app 8 (le_bytes 8 orig) _ (length_le_bytes 8 orig)).
    rewrite length_le_bytes. cbn [Nat.ltb Nat.leb].
    rewrite (fread_app 8 (le_bytes 8 _) _ (length_le_bytes 8 _)).
    rewrite length_le_bytes. cbn [Nat.ltb Nat.leb].
    rewrite le_value_u64 by lia. rewrite Nat2Z.id.
    rewrite (fread_app (length comp) comp _ eq_refl).
    rewrite Z.eqb_refl, andb_false_r.
    unfold decoded at 1. rewrite Hd.
    rewrite IH, <- app_assoc. reflexivity.
Qed.

(** Reading back a container whose token streams decode. *)
Lemma read_container_of (rs : list (Z * list byte)) :
  (Z.of_nat (length rs) < 4294967296)%Z ->
  Forall (fun r => (Z.of_nat (length (snd r)) < 18446744073709551616)%Z
                   /\ exists d, decompress (snd r) = Ok d) rs ->
  read_and_decompress_file (container_of rs)
  = (Some (concat (map (fun r => decoded (snd r)) rs)), Ok tt).
Proof.
  intros Hcnt Hrs. unfold read_and_decompress_file, container_of.
  rewrite (fread_app 4 magic _ eq_refl).
  change (length magic <? 4) with false. cbv iota.
  destruct (list_eq_dec byte_eq_dec magic magic) as [_|Hne];
    [|contradiction].
  rewrite (fread_app 4 (le_bytes 4 _) _ (length_le_bytes 4 _)).
  rewrite length_le_bytes. change (4 <? 4) with false. cbv iota.
  rewrite le_value_u32 by lia. rewrite Nat2Z.id.
  pose proof (decompress_records_decoded rs Hrs [] []) as H.
  rewrite app_nil_r in H. rewrite H. reflexivity.
Qed.

(** ** Decompressing a container *)

(** [C7] A container whose first four bytes are not [MTC1] is rejected
    with a format error before the output file is opened: no byte of
    output is written. *)
Theorem bad_magic_rejected (f : file) :
  firstn 4 f <> magic ->
  exists e,
    read_and_decompress_file f = (None, Throw e)
    /\ kind e = FormatError
    /\ (4 <= length f -> e = not_a_MTC1_file)
    /\ written (fst (read_and_decompress_file f)) = []
    /\ main_decompress f
       = Ok {| exit_code := 1; cout := "";
               cerr := "Error: " ++ what e ++ nl; out_file := None |}.
Proof.
  intros Hmagic.
  assert (H : exists e, read_and_decompress_file f = (None, Throw e)
                        /\ kind e = FormatError
                        /\ (4 <= length f -> e = not_a_MTC1_file)).
  { unfold read_and_decompress_file, fread.
    destruct (Nat.ltb_spec (length (firstn 4 f)) 4) as [Hshort|Hlong].
    - exists bad_file. repeat split.
      intros Hlen. rewrite length_firstn in Hshort. lia.
    - destruct (list_eq_dec byte_eq_dec (firstn 4 f) magic) as [Heq|Hne];
        [contradiction|].
      exists not_a_MTC1_file. repeat split. }
  destruct H as (e & He & Hk & Hlen).
  exists e. unfold main_decompress. rewrite He.
  repeat split; auto.
Qed.

Lemma bad_magic_rejected_witness :
  exists e,
    read_and_decompress_file (bytes_of "MTC2" ++ le_bytes 4 0)
    = (None, Throw e)
    /\ kind e = FormatError
    /\ (4 <= length (bytes_of "MTC2" ++ le_bytes 4 0) -> e = not_a_MTC1_file)
    /\ written (fst (read_and_decompress_file
                       (bytes_of "MTC2" ++ le_bytes 4 0))) = []
    /\ main_decompress (bytes_of "MTC2" ++ le_bytes 4 0)
       = Ok {| exit_code := 1; cout := "";
               cerr := "Error: " ++ what e ++ nl; out_file := None |}.
Proof.
  apply (bad_magic_rejected (bytes_of "MTC2" ++ le_bytes 4 0)).
  vm_compute. discriminate.
Defined.

(** A record that declares 5 bytes and decodes to 1: the run prints what
    a run without mismatch prints. *)
Lemma size_mismatch_counterexample :
  let k := container_of [(5%Z, [x00; x41])] in
  length (decoded [x00; x41]) = 1
  /\ exists r, main_decompress k = Ok r
               /\ out_file r = Some [x41]
               /\ ~ reports_mismatch r.
Proof.
  cbv zeta. split; [reflexivity|].
  eexists. split; [vm_compute; reflexivity|]. split; [reflexivity|].
  unfold reports_mismatch. cbn [cerr cout]. intros [H|H]; apply H; reflexivity.
Qed.

(** [C8] When the token streams of the records decode, whatever sizes
    the records declare, the run is not aborted, the decoded bytes of all
    records are written in record order, and the run prints the line of
    a successful run and nothing else: a decoded length that differs from
    the declared size is not reported. *)
Theorem size_mismatch_silent (rs : list (Z * list byte)) :
  (Z.of_nat (length rs) < 4294967296)%Z ->
  Forall (fun r => (Z.of_nat (length (snd r)) < 18446744073709551616)%Z
                   /\ exists d, decompress (snd r) = Ok d) rs ->
  exists r,
    main_decompress (container_of rs) = Ok r
    /\ r = {| exit_code := 0; cout := "Decompression done." ++ nl;
              cerr := "";
              out_file := Some (concat (map (fun r => decoded (snd r)) rs)) |}
    /\ ~ reports_mismatch r.
Proof.
  intros Hcnt Hrs. unfold main_decompress.
  rewrite (read_container_of rs Hcnt Hrs).
  eexists. split; [reflexivity|]. split; [reflexivity|].
  unfold reports_mismatch. cbn [cerr cout]. intros [H|H]; apply H; reflexivity.
Qed.

Lemma size_mismatch_silent_witness :
  exists r,
    main_decompress (container_of [(5%Z, [x00; x41])]) = Ok r
    /\ r = {| exit_code := 0; cout := "Decompression done." ++ nl;
              cerr := "";
              out_file :=
                Some (concat (map (fun r => decoded (snd r))
                                [(5%Z, [x00; x41])])) |}
    /\ ~ reports_mismatch r.
Proof.
  apply (size_mismatch_silent [(5%Z, [x00; x41])]).
  - simpl. lia.
  - constructor; [|constructor]. split.
    + simpl. lia.
    + exists [x41]. reflexivity.
Defined.

(** [main] refuses an empty input and writes no container. *)
Lemma empty_input_counterexample :
  ~ exists r container,
      main_compress [] default_chunk_size = Ok r
      /\ c_out_file r = Some container.
Proof.
  intros (r & container & Hr & Hout).
  vm_compute in Hr. inversion Hr; subst r. discriminate.
Qed.

(** [C5] Compressing an empty input file is refused: [main] prints
    [cannot read input or file empty], returns 1 and writes no container.
    The container with chunk count 0 and no record is the tag followed by
    a zero count; decompressing it gives an output file of length zero. *)
Theorem empty_input_refused :
  (forall chunk_size,
      main_compress [] chunk_size
      = Ok {| c_exit_code := 1;
              c_cerr := "cannot read input or file empty" ++ nl;
              c_out_file := None |})
  /\ container_of [] = magic ++ [x00; x00; x00; x00]
  /\ write_all [] [] = Ok (container_of [])
  /\ read_and_decompress_file (container_of []) = (Some [], Ok tt)
  /\ main_decompress (container_of [])
     = Ok {| exit_code := 0; cout := "Decompression done." ++ nl;
             cerr := ""; out_file := Some [] |}.
Proof.
  repeat split; reflexivity.
Qed.

(** ** Cutting a file into chunks *)

Lemma firstn_min_length {A : Type} (a : nat) (l : list A) :
  firstn (Nat.min a (length l)) l = firstn a l.
Proof.
  destruct (Nat.le_gt_cases a (length l)) as [Hle|Hgt].
  - rewrite Nat.min_l by lia. reflexivity.
  - rewrite Nat.min_r by lia. rewrite firstn_all, firstn_all2 by lia.
    reflexivity.
Qed.

(** The chunks from [i] on make up the file from [i * size] on. *)
Lemma concat_chunks (f : file) (size : nat) :
  forall (k i : nat),
    length f <= (i + k) * size ->
    concat (map (chunk_of f size) (seq i k)) = skipn (i * size) f.
Proof.
  induction k as [|k IH]; intros i Hlen.
  - simpl. rewrite skipn_all2 by lia. reflexivity.
  - cbn [seq map concat]. rewrite IH by lia.
    unfold chunk_of.
    replace (S i * size) with (size + i * size) by lia.
    rewrite <- skipn_skipn. apply firstn_skipn.
Qed.

Lemma compress_compressed (chunk : list byte) :
  compress codec chunk = Ok (compressed chunk)
  /\ decoded (compressed chunk) = chunk
  /\ decompress (compressed chunk) = Ok chunk
  /\ length (compressed chunk) <= 2 * length chunk.
Proof.
  destruct (compress_decompress chunk) as (out & Hc & Hd).
  destruct (compress_size chunk) as (out' & Hc' & Hsz & _).
  unfold decoded, compressed. rewrite Hc. rewrite Hc' in Hc.
  inversion Hc; subst out'. rewrite Hd. auto.
Qed.

(** The first loop of [main] on a file of less than [2^64] bytes, for the
    chunks that start inside the file: every read succeeds and the
    futures hold the compressed chunks with their indices. *)
Lemma submit_chunks_futures (f : file) (size : nat) :
  1 <= size ->
  (Z.of_nat (length f) < 18446744073709551616)%Z ->
  forall (k i : nat),
    (i + k) * size < length f + size ->
    submit_chunks f (Z.of_nat (length f)) (Z.of_nat size) k i
    = Ok (Futures (map (fun j => (j, compressed (chunk_of f size j)))
                     (seq i k))).
Proof.
  intros Hsize Hlen. induction k as [|k IH]; intros i Hik.
  - reflexivity.
  - cbn [submit_chunks seq map]. unfold read_size, read_file_chunk, u64.
    assert (Hoff : i * size < length f) by lia.
    rewrite <- Nat2Z.inj_mul.
    rewrite (Z.mod_small (Z.of_nat (i * size))) by lia.
    rewrite (Z.mod_small (Z.of_nat (length f) - Z.of_nat (i * size))) by lia.
    rewrite Nat2Z.id.
    replace (Z.min (Z.of_nat size)
               (Z.of_nat (length f) - Z.of_nat (i * size)))
      with (Z.of_nat (Nat.min size (length (skipn (i * size) f))))
      by (rewrite length_skipn; lia).
    rewrite Nat2Z.id, firstn_min_length.
    fold (chunk_of f size i).
    assert (Hchunk : length (chunk_of f size i)
                     = Nat.min size (length f - i * size))
      by (unfold chunk_of; rewrite length_firstn, length_skipn; reflexivity).
    destruct (Nat.eqb_spec (length (chunk_of f size i)) 0) as [H0|_];
      [lia|].
    cbn [andb].
    destruct (compress_compressed (chunk_of f size i)) as (-> & _).
    cbn [bind]. rewrite IH by lia. reflexivity.
Qed.

(** ** Collecting the results and writing the container *)

Lemma vec_set_middle {A : Type} (pre post : list A) (old x : A) :
  vec_set (pre ++ old :: post) (length pre) x = Ok (pre ++ x :: post).
Proof.
  unfold vec_set.
  destruct (Nat.ltb_spec (length pre) (length (pre ++ old :: post))) as [_|H].
  2:{ rewrite length_app in H. simpl in H. lia. }
  rewrite firstn_app, firstn_all, Nat.sub_diag. cbn [firstn].
  rewrite app_nil_r.
  rewrite skipn_app, skipn_all2 by lia.
  replace (S (length pre) - length pre) with 1 by lia.
  reflexivity.
Qed.

(** The futures taken in the order of submission fill the slots of their
    indices. *)
Lemma collect_fills (g : nat -> list byte) :
  forall (k : nat) (pre mid post : list (list byte)),
    length mid = k ->
    collect (map (fun j => (j, g j)) (seq (length pre) k))
      (pre ++ mid ++ post)
    = Ok (pre ++ map g (seq (length pre) k) ++ post).
Proof.
  induction k as [|k IH]; intros pre mid post Hmid.
  - destruct mid; [reflexivity|discriminate].
  - destruct mid as [|old mid]; [discriminate|].
    cbn [seq map collect app].
    rewrite vec_set_middle. cbn [bind].
    replace (pre ++ g (length pre) :: mid ++ post)
      with ((pre ++ [g (length pre)]) ++ mid ++ post)
      by (rewrite <- app_assoc; reflexivity).
    replace (S (length pre)) with (length (pre ++ [g (length pre)]))
      by (rewrite length_app; simpl; lia).
    rewrite IH by (simpl in Hmid; lia).
    rewrite <- app_assoc. reflexivity.
Qed.

(** The record loop of [write_all] lays the records out as the
    specification has them. *)
Lemma write_records_layout (chunks : list (list byte)) (origs : list Z) :
  length origs = length chunks ->
  Forall (fun ch => (Z.of_nat (length ch) < 18446744073709551616)%Z) chunks ->
  forall (k i : nat),
    i + k = length chunks ->
    write_records chunks origs k i
    = Ok (flat_map record_bytes (combine (skipn i origs) (skipn i chunks))).
Proof.
  intros Hlen Hsz. induction k as [|k IH]; intros i Hik.
  - rewrite (skipn_all2 chunks) by lia. rewrite combine_nil. reflexivity.
  - cbn [write_records].
    destruct (skipn i origs) as [|orig origs'] eqn:Eo.
    { apply (f_equal (@length Z)) in Eo. rewrite length_skipn in Eo.
      simpl in Eo. lia. }
    destruct (skipn i chunks) as [|chunk chunks'] eqn:Ec.
    { apply (f_equal (@length (list byte))) in Ec.
      rewrite length_skipn in Ec. simpl in Ec. lia. }
    apply skipn_cons_inv in Eo. destruct Eo as [Ho Eo].
    apply skipn_cons_inv in Ec. destruct Ec as [Hc Ec].
    rewrite (at_index_Some _ _ _ Ho), (at_index_Some _ _ _ Hc). cbn [bind].
    rewrite IH by lia. cbn [bind]. rewrite Eo, Ec.
    cbn [combine flat_map]. unfold record_bytes at 2. cbn [fst snd].
    assert (Hch : (Z.of_nat (length chunk) < 18446744073709551616)%Z).
    { rewrite Forall_forall in Hsz. apply Hsz.
      eapply nth_error_In. exact Hc. }
    unfold u64. rewrite Z.mod_small by lia.
    destruct (Z.eqb_spec (Z.of_nat (length chunk)) 0) as [H0|_].
    + assert (chunk = []) by (apply length_zero_iff_nil; lia). subst chunk.
      rewrite <- !app_assoc. reflexivity.
    + rewrite <- !app_assoc. reflexivity.
Qed.

Lemma combine_map_same {A B C : Type} (a : A -> B) (b : A -> C) (l : list A) :
  combine (map a l) (map b l) = map (fun x => (a x, b x)) l.
Proof.
  induction l as [|x l IH]; simpl; [|rewrite IH]; reflexivity.
Qed.

(** ** Compressing a file *)

(** The chunk count in the range where [fsize + chunk_size - 1] does not
    wrap around. *)
Lemma num_chunks_in_range (fsize chunk_size : Z) :
  (0 < fsize)%Z -> (1 <= chunk_size)%Z ->
  (fsize + chunk_size <= 18446744073709551616)%Z ->
  num_chunks_of fsize chunk_size = ceil_div fsize chunk_size
  /\ (chunk_size * (ceil_div fsize chunk_size - 1) < fsize
      <= chunk_size * ceil_div fsize chunk_size)%Z.
Proof.
  intros Hf Hc Hsum. unfold num_chunks_of, ceil_div, u64.
  rewrite Z.mod_small by lia. split; [reflexivity|].
  pose proof (Z.mul_div_le (fsize + chunk_size - 1) chunk_size ltac:(lia)).
  pose proof (Z.mul_succ_div_gt (fsize + chunk_size - 1) chunk_size
                ltac:(lia)).
  lia.
Qed.

Lemma length_chunk_of (f : file) (size i : nat) :
  length (chunk_of f size i) = Nat.min size (length f - i * size).
Proof.
  unfold chunk_of. rewrite length_firstn, length_skipn. reflexivity.
Qed.

(** Where no integer of the run wraps around, [main] writes the
    container of the compressed chunks. *)
Lemma main_compress_in_range (f : file) (size : nat) :
  f <> [] -> 1 <= size ->
  (Z.of_nat (length f) + Z.of_nat size <= 18446744073709551616)%Z ->
  (2 * Z.of_nat (length f) < 18446744073709551616)%Z ->
  (ceil_div (Z.of_nat (length f)) (Z.of_nat size) < 4294967296)%Z ->
  let count := Z.to_nat (ceil_div (Z.of_nat (length f)) (Z.of_nat size)) in
  length f <= count * size < length f + size
  /\ main_compress f (Z.of_nat size)
     = Ok {| c_exit_code := 0; c_cerr := "";
             c_out_file := Some (container_of (records_of f size count)) |}.
Proof.
  intros Hne Hsize Hsum Hdouble Hcount count.
  assert (Hlen : 0 < length f) by (destruct f; [contradiction|simpl; lia]).
  destruct (num_chunks_in_range (Z.of_nat (length f)) (Z.of_nat size))
    as [Hnum Hceil]; [lia|lia|lia|].
  set (N := ceil_div (Z.of_nat (length f)) (Z.of_nat size)) in *.
  assert (HN : (0 <= N)%Z) by (apply Z.div_pos; lia).
  assert (Hc : Z.of_nat count = N) by (apply Z2Nat.id; exact HN).
  assert (Hcs : Z.of_nat (count * size) = (Z.of_nat size * N)%Z)
    by (rewrite Nat2Z.inj_mul, Hc; lia).
  assert (Hrange : length f <= count * size < length f + size) by lia.
  split; [exact Hrange|].
  unfold main_compress, file_size, u64.
  rewrite (Z.mod_small (Z.of_nat (length f))) by lia.
  destruct (Z.eqb_spec (Z.of_nat (length f)) 0) as [H0|_]; [lia|].
  destruct (Z.eqb_spec (Z.of_nat size) 0) as [H0|_]; [lia|].
  rewrite Hnum. fold count.
  rewrite submit_chunks_futures by lia. cbn [bind].
  pose proof (collect_fills (fun j => compressed (chunk_of f size j))
                count [] (repeat [] count) [] (repeat_length _ _)) as Hcol.
  cbn [app length] in Hcol. rewrite app_nil_r in Hcol.
  rewrite app_nil_r in Hcol. rewrite Hcol. cbn [bind].
  unfold write_all.
  rewrite (write_records_layout _ _) with (i := 0).
  - cbn [bind skipn]. rewrite length_map, length_seq.
    unfold u32. rewrite Z.mod_small by lia.
    unfold container_of, records_of.
    rewrite length_map, length_seq, Hc.
    rewrite combine_map_same. reflexivity.
  - rewrite !length_map. reflexivity.
  - apply Forall_forall. intros ch Hin.
    apply in_map_iff in Hin. destruct Hin as (j & <- & _).
    destruct (compress_compressed (chunk_of f size j)) as (_ & _ & _ & Hsz).
    pose proof (length_chunk_of f size j). lia.
  - rewrite length_map, length_seq. reflexivity.
Qed.

(** Decompressing that container gives the file back. *)
Lemma read_records_of (f : file) (size count : nat) :
  length f <= count * size ->
  (2 * Z.of_nat (length f) < 18446744073709551616)%Z ->
  (Z.of_nat count < 4294967296)%Z ->
  read_and_decompress_file (container_of (records_of f size count))
  = (Some f, Ok tt).
Proof.
  intros Hcover Hdouble Hcount.
  rewrite read_container_of.
  - unfold records_of. rewrite map_map. cbn [snd].
    rewrite (map_ext _ (chunk_of f size)).
    + rewrite concat_chunks by lia. reflexivity.
    + intros j. apply compress_compressed.
  - unfold records_of. rewrite length_map, length_seq. exact Hcount.
  - apply Forall_forall. intros r Hin. unfold records_of in Hin.
    apply in_map_iff in Hin. destruct Hin as (j & <- & _). cbn [snd].
    destruct (compress_compressed (chunk_of f size j)) as (_ & _ & Hd & Hsz).
    pose proof (length_chunk_of f size j).
    split; [lia|]. exists (chunk_of f size j). exact Hd.
Qed.

(** ** Chunk boundaries *)

(** In the range where [fsize + chunk_size - 1] does not wrap around, the
    chunks are as the specification has them: all of the chunk size but
    the last, which has the remainder of the division, or the chunk size
    when the remainder is 0. *)
Lemma chunking_in_range (fsize chunk_size : Z) :
  (0 < fsize)%Z -> (1 <= chunk_size)%Z ->
  (fsize + chunk_size <= 18446744073709551616)%Z ->
  let count := num_chunks_of fsize chunk_size in
  count = ceil_div fsize chunk_size
  /\ (1 <= count)%Z
  /\ forall i : nat,
       (Z.of_nat i < count)%Z ->
       read_size fsize chunk_size i = original_size fsize chunk_size count i
       /\ ((Z.of_nat i < count - 1)%Z ->
           read_size fsize chunk_size i = chunk_size)
       /\ (Z.of_nat i = (count - 1)%Z ->
           read_size fsize chunk_size i
           = if (fsize mod chunk_size =? 0)%Z then chunk_size
             else (fsize mod chunk_size)%Z).
Proof.
  intros Hf Hc Hsum count.
  destruct (num_chunks_in_range fsize chunk_size Hf Hc Hsum) as [Hnum Hceil].
  fold count in Hnum. rewrite <- Hnum in Hceil.
  split; [exact Hnum|].
  assert (Hcount : (1 <= count)%Z) by nia.
  split; [exact Hcount|].
  intros i Hi.
  assert (Hoff : (0 <= Z.of_nat i * chunk_size < fsize)%Z) by nia.
  unfold read_size, original_size, u64.
  rewrite (Z.mod_small (Z.of_nat i * chunk_size)) by lia.
  rewrite (Z.mod_small (fsize - Z.of_nat i * chunk_size)) by lia.
  split; [|split].
  - destruct (Z.eqb_spec (Z.of_nat i) (count - 1)) as [Heq|Hne].
    + apply Z.min_r. nia.
    + apply Z.min_l. nia.
  - intros Hlt. apply Z.min_l. nia.
  - intros Heq. rewrite Z.min_r by nia.
    pose proof (Z.div_mod fsize chunk_size ltac:(lia)) as Hdm.
    pose proof (Z.mod_pos_bound fsize chunk_size ltac:(lia)) as Hr.
    set (q := (fsize / chunk_size)%Z) in *.
    set (r := (fsize mod chunk_size)%Z) in *.
    assert (Hlo : (count - 1 < q + 1)%Z)
      by (apply (Z.mul_lt_mono_pos_l chunk_size); lia).
    destruct (Z.eqb_spec r 0) as [H0|Hn0].
    + assert (Hlo' : (count - 1 < q)%Z)
        by (apply (Z.mul_lt_mono_pos_l chunk_size); lia).
      assert (Hhi : (q <= count)%Z)
        by (apply (Z.mul_le_mono_pos_l _ _ chunk_size); lia).
      assert (q = count) by lia. subst count. lia.
    + assert (Hhi : (q < count)%Z)
        by (apply (Z.mul_lt_mono_pos_l chunk_size); lia).
      assert (Hq : count = (q + 1)%Z) by lia.
      rewrite Heq, Hq. lia.
Qed.

(** The third scenario of the specification, for chunk sizes below
    [2^63]. *)
Lemma chunking_scenario (chunk_size : Z) :
  (1 <= chunk_size < 9223372036854775808)%Z ->
  num_chunks_of chunk_size chunk_size = 1%Z
  /\ num_chunks_of (chunk_size + 1) chunk_size = 2%Z
  /\ original_size (chunk_size + 1) chunk_size 2 1 = 1%Z
  /\ read_size (chunk_size + 1) chunk_size 1 = 1%Z.
Proof.
  intros Hc. unfold num_chunks_of, original_size, read_size, u64.
  rewrite !Z.mod_small by lia.
  repeat split.
  - symmetry. apply (Z.div_unique _ _ 1 (chunk_size - 1)); lia.
  - symmetry. apply (Z.div_unique _ _ 2 0); lia.
  - change (Z.of_nat 1 =? 2 - 1)%Z with true. cbv iota.
    change (Z.of_nat 1) with 1%Z. rewrite Z.mul_1_l.
    rewrite (Z.mod_small chunk_size) by lia.
    rewrite Z.mod_small by lia. lia.
  - change (Z.of_nat 1) with 1%Z. rewrite Z.mul_1_l.
    rewrite (Z.mod_small chunk_size) by lia.
    rewrite Z.mod_small by lia. lia.
Qed.

(** [C6] The chunk count is not the ceiling of [total_size / chunk_size]
    for every chunk size: on a file of 2 bytes with the chunk size
    [2^64 - 1], which [stoull] accepts, [fsize + chunk_size - 1] wraps
    around to 0, [main] counts 0 chunks where the ceiling is 1, and
    writes, with status 0, a container without records that decompresses
    to the empty file. *)
Theorem chunk_count_wraps :
  ceil_div 2 18446744073709551615 = 1%Z
  /\ num_chunks_of 2 18446744073709551615 = 0%Z
  /\ main_compress [x41; x42] 18446744073709551615
     = Ok {| c_exit_code := 0; c_cerr := "";
             c_out_file := Some (container_of []) |}
  /\ read_and_decompress_file (container_of []) = (Some [], Ok tt).
Proof.
  repeat split; vm_compute; reflexivity.
Qed.

(** ** Round trip *)

(** On the empty file [main] writes no container to decompress. *)
Lemma roundtrip_counterexample :
  ~ exists r container,
      main_compress [] 1 = Ok r
      /\ c_out_file r = Some container
      /\ read_and_decompress_file container = (Some [], Ok tt).
Proof.
  intros (r & container & Hr & Hout & _).
  vm_compute in Hr. inversion Hr; subst r. discriminate.
Qed.

(** [C1] Decoding the output of the encoder gives the input back, for
    every byte sequence.  For every non-empty file and every chunk size of
    at least 1, as long as the sizes stay in the range of the integers
    that hold them (the file length plus the chunk size is at most [2^64],
    twice the file length is below [2^64], the chunk count is below
    [2^32]), decompressing the container written by the compression gives
    the file back.  For the empty file the compression writes no
    container. *)
Theorem roundtrip (B : list byte) :
  (exists out, compress codec B = Ok out /\ decompress out = Ok B)
  /\ (forall chunk_size : Z,
        B <> [] ->
        (1 <= chunk_size)%Z ->
        (Z.of_nat (length B) + chunk_size <= 18446744073709551616)%Z ->
        (2 * Z.of_nat (length B) < 18446744073709551616)%Z ->
        (ceil_div (Z.of_nat (length B)) chunk_size < 4294967296)%Z ->
        exists container,
          main_compress B chunk_size
          = Ok {| c_exit_code := 0; c_cerr := "";
                  c_out_file := Some container |}
          /\ read_and_decompress_file container = (Some B, Ok tt))
  /\ (B = [] ->
      forall chunk_size : Z,
        exists r, main_compress B chunk_size = Ok r
                  /\ c_exit_code r = 1%Z /\ c_out_file r = None).
Proof.
  split; [apply compress_decompress|]. split.
  - intros chunk_size Hne Hc Hsum Hdouble Hcount.
    rewrite <- (Z2Nat.id chunk_size) in * by lia.
    set (size := Z.to_nat chunk_size) in *.
    destruct (main_compress_in_range B size Hne) as [Hrange Hmain];
      try lia.
    eexists. split; [exact Hmain|].
    apply read_records_of; lia.
  - intros -> chunk_size. eexists. split; [reflexivity|].
    split; reflexivity.
Qed.

(** The first scenario of the specification and a file of three chunks. *)
Example roundtrip_examples :
  compress codec (bytes_of "ABABABABAB")
  = Ok (flat_map token_bytes [Literal "A"; Literal "B"; Match 2 8])
  /\ decompress (compressed (bytes_of "ABABABABAB"))
     = Ok (bytes_of "ABABABABAB")
  /\ exists container,
       main_compress (bytes_of "ABABABABAB") 4
       = Ok {| c_exit_code := 0; c_cerr := "";
               c_out_file := Some container |}
       /\ read_and_decompress_file container
          = (Some (bytes_of "ABABABABAB"), Ok tt).
Proof.
  split; [reflexivity|]. split; [reflexivity|].
  eexists. split; vm_compute; reflexivity.
Qed.

Lemma roundtrip_witness :
  exists container,
    main_compress (bytes_of "ABABABABAB") 4
    = Ok {| c_exit_code := 0; c_cerr := ""; c_out_file := Some container |}
    /\ read_and_decompress_file container
       = (Some (bytes_of "ABABABABAB"), Ok tt).
Proof.
  apply (proj1 (proj2 (roundtrip (bytes_of "ABABABABAB"))) 4%Z).
  - discriminate.
  - lia.
  - simpl. lia.
  - simpl. lia.
  - vm_compute. reflexivity.
Defined.

(** * Further properties of the codec *)

(** ** What the decoder produces *)

(** A stream of [n] bytes decodes to at most [255 * n / 4] bytes: a
    literal gives one byte for two, a match at most 255 for four. *)
Lemma decode_from_length :
  forall (m : nat) (s out r : list byte),
    length s <= m ->
    decode_from s out = Ok r ->
    4 * length r <= 4 * length out + 255 * length s.
Proof.
  induction m as [|m IH]; intros s out r Hm Hd.
  - destruct s; [|simpl in Hm; lia]. simpl in Hd. inversion Hd. simpl. lia.
  - destruct s as [|flag s]; [simpl in Hd; inversion Hd; simpl; lia|].
    simpl in Hm.
    destruct (Byte.eqb flag x00) eqn:E0.
    { apply eqb_eq in E0. subst flag.
      destruct s as [|b s]; [discriminate|].
      rewrite decode_from_x00 in Hd. simpl in Hm.
      apply IH in Hd; [|lia]. rewrite length_app in Hd. simpl in *. lia. }
    destruct (Byte.eqb flag x01) eqn:E1.
    2:{ simpl in Hd. rewrite E0, E1 in Hd. discriminate. }
    apply eqb_eq in E1. subst flag.
    destruct s as [|hi [|lo [|len s]]]; try discriminate.
    destruct (Nat.eq_dec (offset_of hi lo) 0) as [Hz|Hnz].
    { rewrite decode_from_bad_offset in Hd by (left; exact Hz).
      discriminate. }
    destruct (Nat.ltb_spec (length out) (offset_of hi lo)) as [Hbig|Hok].
    { rewrite decode_from_bad_offset in Hd by (right; exact Hbig).
      discriminate. }
    rewrite decode_from_match in Hd by lia. simpl in Hm.
    apply IH in Hd; [|lia]. rewrite length_expand in Hd.
    pose proof (byte_val_range len). simpl. lia.
Qed.

(** [X1] The decoder cannot be made to produce more than 255 bytes for
    every 4 bytes it reads. *)
Theorem decompress_expansion_bound (s out : list byte) :
  decompress s = Ok out -> 4 * length out <= 255 * length s.
Proof.
  rewrite decompress_from. intros H.
  apply (decode_from_length (length s)) in H; [|lia]. simpl in H. lia.
Qed.

Lemma decompress_expansion_bound_witness :
  4 * length (repeat x41 256) <= 255 * length [x00; x41; x01; x00; x01; xff].
Proof.
  apply (decompress_expansion_bound [x00; x41; x01; x00; x01; xff]).
  vm_compute. reflexivity.
Defined.

(** Copying a match looks at the last [off] bytes only: bytes before them
    do not change what is appended. *)
Lemma expand_app_prefix (off : nat) (pre : list byte) :
  forall (k : nat) (out : list byte),
    1 <= off <= length out ->
    expand k off (pre ++ out) = pre ++ expand k off out.
Proof.
  induction k as [|k IH]; intros out Hoff.
  - reflexivity.
  - cbn [expand]. rewrite length_app.
    rewrite app_nth2 by lia.
    replace (length pre + length out - off - length pre)
      with (length out - off) by lia.
    rewrite <- app_assoc. apply IH. rewrite length_app. simpl. lia.
Qed.

(** Decoding after a longer output: the same bytes are appended. *)
Lemma decode_from_prefix (pre : list byte) :
  forall (m : nat) (s out r : list byte),
    length s <= m ->
    decode_from s out = Ok r ->
    decode_from s (pre ++ out) = Ok (pre ++ r).
Proof.
  induction m as [|m IH]; intros s out r Hm Hd.
  - destruct s; [|simpl in Hm; lia]. simpl in *. inversion Hd. reflexivity.
  - destruct s as [|flag s]; [simpl in *; inversion Hd; reflexivity|].
    simpl in Hm.
    destruct (Byte.eqb flag x00) eqn:E0.
    { apply eqb_eq in E0. subst flag.
      destruct s as [|b s]; [discriminate|].
      rewrite decode_from_x00 in *. simpl in Hm.
      rewrite <- app_assoc. apply (IH s); [lia|exact Hd]. }
    destruct (Byte.eqb flag x01) eqn:E1.
    2:{ simpl in Hd. rewrite E0, E1 in Hd. discriminate. }
    apply eqb_eq in E1. subst flag.
    destruct s as [|hi [|lo [|len s]]]; try discriminate.
    destruct (Nat.eq_dec (offset_of hi lo) 0) as [Hz|Hnz].
    { rewrite decode_from_bad_offset in Hd by (left; exact Hz).
      discriminate. }
    destruct (Nat.ltb_spec (length out) (offset_of hi lo)) as [Hbig|Hok].
    { rewrite decode_from_bad_offset in Hd by (right; exact Hbig).
      discriminate. }
    rewrite decode_from_match in Hd by lia.
    rewrite decode_from_match by (rewrite length_app; lia).
    rewrite expand_app_prefix by lia.
    simpl in Hm. apply (IH s); [lia|exact Hd].
Qed.

(** Decoding a stream that continues: the rest is decoded after the
    output of the part that decodes. *)
Lemma decode_from_app (b : list byte) :
  forall (m : nat) (a out o : list byte),
    length a <= m ->
    decode_from a out = Ok o ->
    decode_from (a ++ b) out = decode_from b o.
Proof.
  induction m as [|m IH]; intros a out o Hm Hd.
  - destruct a; [|simpl in Hm; lia]. simpl in Hd. inversion Hd. reflexivity.
  - destruct a as [|flag a]; [simpl in Hd; inversion Hd; reflexivity|].
    simpl in Hm.
    destruct (Byte.eqb flag x00) eqn:E0.
    { apply eqb_eq in E0. subst flag.
      destruct a as [|c a]; [discriminate|].
      cbn [app]. rewrite decode_from_x00 in *. simpl in Hm.
      apply (IH a); [lia|exact Hd]. }
    destruct (Byte.eqb flag x01) eqn:E1.
    2:{ simpl in Hd. rewrite E0, E1 in Hd. discriminate. }
    apply eqb_eq in E1. subst flag.
    destruct a as [|hi [|lo [|len a]]]; try discriminate.
    destruct (Nat.eq_dec (offset_of hi lo) 0) as [Hz|Hnz].
    { rewrite decode_from_bad_offset in Hd by (left; exact Hz).
      discriminate. }
    destruct (Nat.ltb_spec (length out) (offset_of hi lo)) as [Hbig|Hok].
    { rewrite decode_from_bad_offset in Hd by (right; exact Hbig).
      discriminate. }
    cbn [app]. rewrite decode_from_match in * by lia.
    simpl in Hm. apply (IH a); [lia|exact Hd].
Qed.

Lemma decompress_app_ok (a b oa ob : list byte) :
  decompress a = Ok oa -> decompress b = Ok ob ->
  decompress (a ++ b) = Ok (oa ++ ob).
Proof.
  rewrite !decompress_from. intros Ha Hb.
  rewrite (decode_from_app b (length a) a [] oa (Nat.le_refl _) Ha).
  pose proof (decode_from_prefix oa (length b) b [] ob (Nat.le_refl _) Hb)
    as H.
  rewrite app_nil_r in H. exact H.
Qed.

(** [X2] Two streams that decode, put one after the other, decode to the
    two outputs one after the other: the offsets of a stream reach no
    further back than its own output. *)
Theorem decompress_app (a b oa ob : list byte) :
  decompress a = Ok oa -> decompress b = Ok ob ->
  decompress (a ++ b) = Ok (oa ++ ob).
Proof.
  exact (decompress_app_ok a b oa ob).
Qed.

Lemma decompress_app_witness :
  decompress ([x00; x41; x01; x00; x01; x03] ++ [x00; x42; x01; x00; x01; x02])
  = Ok ([x41; x41; x41; x41] ++ [x42; x42; x42]).
Proof.
  apply (decompress_app [x00; x41; x01; x00; x01; x03]
           [x00; x42; x01; x00; x01; x02]); vm_compute; reflexivity.
Defined.

(** [X3] The outputs of the encoder for two inputs, put one after the
    other, decode to the two inputs one after the other. *)
Theorem compress_chunks_concatenate (a b : list byte) :
  exists ca cb,
    compress codec a = Ok ca /\ compress codec b = Ok cb
    /\ decompress (ca ++ cb) = Ok (a ++ b).
Proof.
  destruct (compress_decompress a) as (ca & Hca & Hda).
  destruct (compress_decompress b) as (cb & Hcb & Hdb).
  exists ca, cb. split; [exact Hca|]. split; [exact Hcb|].
  apply decompress_app_ok; assumption.
Qed.

(** ** What the encoder finds *)

Lemma skipn_nth_cons {A : Type} (p : nat) (l : list A) (a : A) :
  nth_error l p = Some a -> skipn p l = a :: skipn (S p) l.
Proof.
  revert l. induction p as [|p IH]; intros l H.
  - destruct l; simpl in H; inversion H; subst. reflexivity.
  - destruct l as [|x l]; [discriminate|]. simpl in H.
    change (skipn (S p) (x :: l)) with (skipn p l). rewrite (IH l H).
    reflexivity.
Qed.

Section Greedy.

Variable c : LZ77.
Variable input : list byte.

(** The length the search returns is the longest any candidate of the
    window has. *)
Lemma find_best_longest (pos bo bl : nat) :
  pos <= length input ->
  find_best c input pos = Ok (bo, bl) ->
  forall i L, in_window c pos i -> match_at c input pos i L -> L <= bl.
Proof.
  intros Hpos Hf i L Hi Hm.
  destruct (find_best_spec c input pos Hpos) as (bo' & bl' & Hf' & Hbest).
  rewrite Hf in Hf'. inversion Hf'; subst bo' bl'.
  destruct Hbest as [Hmax _]. unfold in_window in Hi.
  destruct (mlen_spec c input pos i) as (_ & _ & Hlongest); [lia|lia|].
  specialize (Hlongest L Hm). specialize (Hmax i). lia.
Qed.

(** A run of the encoder spends two bytes on every input byte exactly
    when no position of the run has a candidate with a match of three
    bytes. *)
Lemma compress_trace_incompressible (pos : nat) (ts : list token) :
  compress_trace c input pos ts ->
  length (flat_map token_bytes ts) = 2 * (length input - pos)
  <-> forall q i, pos <= q < length input -> in_window c q i ->
                  ~ match_at c input q i 3.
Proof.
  induction 1 as [|pos bo bl b ts Hpos Hf Hbl Hb Htr IH
                  |pos bo bl ts Hpos Hf Hbl Htr IH].
  - split; [intros _ q i Hq; lia|intros _; simpl; lia].
  - cbn [flat_map token_bytes]. rewrite length_app. simpl length.
    split.
    + intros Hlen q i Hq Hi Hm.
      destruct (Nat.eq_dec q pos) as [->|Hne].
      * pose proof (find_best_longest pos bo bl ltac:(lia) Hf i 3 Hi Hm).
        lia.
      * revert Hm. apply (proj1 IH); [lia|lia|exact Hi].
    + intros Hnone.
      assert (Hrest : length (flat_map token_bytes ts)
                      = 2 * (length input - S pos)).
      { apply IH. intros q i Hq. apply Hnone. lia. }
      lia.
  - cbn [flat_map token_bytes]. rewrite length_app.
    unfold match_bytes at 1. simpl length.
    destruct (compress_trace_size c input (pos + bl) ts Htr) as [Hsz _].
    pose proof (compress_trace_span c input (pos + bl) ts Htr) as Hspan.
    split.
    + intros Hlen. lia.
    + intros Hnone. exfalso.
      destruct (find_best_spec c input pos) as (bo' & bl' & Hf' & Hbest);
        [lia|].
      rewrite Hf in Hf'. inversion Hf'; subst bo' bl'.
      destruct (best_in_candidate c input pos bo bl) as (i & Hi & _ & _ & Hm);
        [lia|exact Hbest|lia|].
      apply (Hnone pos i); [lia|exact Hi|].
      apply (match_at_shorter c input pos i bl 3); [lia|exact Hm].
Qed.

(** Such a run is the run of the literals of the input bytes. *)
Lemma compress_trace_literals (pos : nat) (ts : list token) :
  compress_trace c input pos ts ->
  length (flat_map token_bytes ts) = 2 * (length input - pos) ->
  flat_map token_bytes ts
  = flat_map (fun b => [x00; b]) (skipn pos input).
Proof.
  induction 1 as [|pos bo bl b ts Hpos Hf Hbl Hb Htr IH
                  |pos bo bl ts Hpos Hf Hbl Htr IH]; intros Hlen.
  - rewrite skipn_all. reflexivity.
  - rewrite (skipn_nth_cons pos input b Hb).
    cbn [flat_map token_bytes] in *. f_equal.
    apply IH. rewrite length_app in Hlen. simpl length in Hlen. lia.
  - exfalso. cbn [flat_map token_bytes] in Hlen.
    rewrite length_app in Hlen. unfold match_bytes in Hlen at 1.
    simpl length in Hlen.
    destruct (compress_trace_size c input (pos + bl) ts Htr) as [Hsz _].
    pose proof (compress_trace_span c input (pos + bl) ts Htr) as Hspan.
    lia.
Qed.

End Greedy.

(** [X4] The length the match search returns for a position is the
    length of the longest match (at most 255 bytes, inside the input)
    that any candidate of the window has, and some candidate has it. *)
Theorem find_best_is_longest (input : list byte) (pos : nat) :
  pos < length input ->
  exists bo bl,
    find_best codec input pos = Ok (bo, bl)
    /\ (forall i L, in_window codec pos i -> match_at codec input pos i L ->
                    L <= bl)
    /\ (0 < bl ->
        exists i, in_window codec pos i /\ bo = pos - i
                  /\ match_at codec input pos i bl).
Proof.
  intros Hpos.
  destruct (find_best_spec codec input pos) as (bo & bl & Hf & Hbest); [lia|].
  exists bo, bl. split; [exact Hf|]. split.
  - apply (find_best_longest codec input pos bo bl); [lia|exact Hf].
  - intros Hbl.
    destruct (best_in_candidate codec input pos bo bl)
      as (i & Hi & Hbo & _ & Hm); [lia|exact Hbest|exact Hbl|].
    exists i. auto.
Qed.

Lemma find_best_is_longest_witness :
  exists bo bl,
    find_best codec (bytes_of "abcXabcYabc") 8 = Ok (bo, bl)
    /\ (forall i L, in_window codec 8 i ->
                    match_at codec (bytes_of "abcXabcYabc") 8 i L -> L <= bl)
    /\ (0 < bl ->
        exists i, in_window codec 8 i /\ bo = 8 - i
                  /\ match_at codec (bytes_of "abcXabcYabc") 8 i bl).
Proof.
  apply (find_best_is_longest (bytes_of "abcXabcYabc") 8).
  simpl. lia.
Defined.

(** [X5] The output of the encoder has twice the length of the input,
    the bound of its size, exactly when no position of the input has a
    candidate in its window with which it shares three bytes; the output
    is then the literals of the input bytes. *)
Theorem compress_incompressible (input : list byte) :
  exists out,
    compress codec input = Ok out
    /\ (length out = 2 * length input
        <-> forall pos i, pos < length input -> in_window codec pos i ->
                          ~ match_at codec input pos i 3)
    /\ (length out = 2 * length input ->
        out = flat_map (fun b => [x00; b]) input).
Proof.
  destruct (compress_trace_exists codec input) as (ts & Hc & Htr).
  exists (flat_map token_bytes ts). split; [exact Hc|].
  pose proof (compress_trace_incompressible codec input 0 ts Htr) as Hiff.
  rewrite Nat.sub_0_r in Hiff.
  split.
  - rewrite Hiff. split.
    + intros H pos i Hpos. apply H. lia.
    + intros H q i Hq. apply H. lia.
  - intros Hlen.
    pose proof (compress_trace_literals codec input 0 ts Htr) as Hlits.
    rewrite Nat.sub_0_r in Hlits. apply Hlits, Hlen.
Qed.

(** ** The copy of a match *)

(** The expansion keeps the output it starts from and appends bytes that
    repeat with the period of the offset. *)
Lemma expand_periodic (off : nat) :
  forall (k : nat) (out : list byte),
    1 <= off <= length out ->
    firstn (length out) (expand k off out) = out
    /\ forall q, length out <= q < length out + k ->
                 nth_error (expand k off out) q
                 = nth_error (expand k off out) (q - off).
Proof.
  induction k as [|k IH]; intros out Hoff.
  - split; [apply firstn_all|intros q Hq; lia].
  - cbn [expand].
    set (b := nth (length out - off) out x00).
    destruct (IH (out ++ [b])) as [Hpre Hper];
      [rewrite length_app; simpl; lia|].
    rewrite length_app in Hpre, Hper. simpl length in Hpre, Hper.
    set (r := expand k off (out ++ [b])) in *.
    assert (Hread : forall j, j < length out + 1 ->
                              nth_error r j = nth_error (out ++ [b]) j).
    { intros j Hj. rewrite <- Hpre. rewrite nth_error_firstn.
      destruct (Nat.ltb_spec j (length out + 1)); [reflexivity|lia]. }
    split.
    + transitivity (firstn (length out) (firstn (length out + 1) r)).
      { rewrite firstn_firstn, Nat.min_l by lia. reflexivity. }
      rewrite Hpre, firstn_app, firstn_all, Nat.sub_diag. simpl.
      rewrite app_nil_r. reflexivity.
    + intros q Hq. destruct (Nat.eq_dec q (length out)) as [->|Hne].
      * rewrite !Hread by lia.
        rewrite nth_error_app2, Nat.sub_diag by lia.
        rewrite nth_error_app1 by lia. simpl.
        symmetry. apply nth_error_nth'. lia.
      * apply Hper. lia.
Qed.

(** [X6] Once the offset of a match is between 1 and the length of the
    output, the copy, for every length from 0 on, returns the output
    followed by [length] more bytes, each equal to the byte [offset]
    places before it: a length above the offset repeats the last
    [offset] bytes. *)
Theorem copy_loop_periodic (out : list byte) (off len : nat) :
  1 <= off <= length out ->
  exists out',
    copy_loop len (length out - off) 0 out = Ok out'
    /\ firstn (length out) out' = out
    /\ length out' = length out + len
    /\ forall q, length out <= q < length out + len ->
                 nth_error out' q = nth_error out' (q - off).
Proof.
  intros Hoff. exists (expand len off out).
  split; [apply copy_loop_expand; lia|].
  destruct (expand_periodic off len out Hoff) as [Hpre Hper].
  split; [exact Hpre|]. split; [apply length_expand|exact Hper].
Qed.

Lemma copy_loop_periodic_witness :
  exists out',
    copy_loop 5 (length [x41; x42] - 2) 0 [x41; x42] = Ok out'
    /\ firstn (length [x41; x42]) out' = [x41; x42]
    /\ length out' = length [x41; x42] + 5
    /\ forall q, length [x41; x42] <= q < length [x41; x42] + 5 ->
                 nth_error out' q = nth_error out' (q - 2).
Proof.
  apply (copy_loop_periodic [x41; x42] 2 5). simpl. lia.
Defined.

(** * Further properties of the container *)

(** ** Reading records *)

(** Records whose token streams decode are read one after the other;
    the loop goes on with what follows them. *)
Lemma decompress_records_app (rs : list (Z * list byte)) :
  Forall well_formed_record rs ->
  forall k rest out,
    decompress_records (length rs + k) (flat_map record_bytes rs ++ rest) out
    = decompress_records k rest
        (out ++ concat (map (fun r => decoded (snd r)) rs)).
Proof.
  induction 1 as [|[orig comp] rs [Hlen [d Hd]] _ IH]; intros k rest out.
  - simpl. rewrite app_nil_r. reflexivity.
  - cbn [length flat_map map concat Nat.add decompress_records].
    unfold record_bytes at 1. cbn [fst snd] in *.
    rewrite <- !app_assoc.
    rewrite (fread_app 8 (le_bytes 8 orig) _ (length_le_bytes 8 orig)).
    rewrite length_le_bytes. cbn [Nat.ltb Nat.leb].
    rewrite (fread_app 8 (le_bytes 8 _) _ (length_le_bytes 8 _)).
    rewrite length_le_bytes. cbn [Nat.ltb Nat.leb].
    rewrite le_value_u64 by lia. rewrite Nat2Z.id.
    rewrite (fread_app (length comp) comp _ eq_refl).
    rewrite Z.eqb_refl, andb_false_r.
    assert (Hdec : decoded comp = d)
      by (unfold decoded; rewrite Hd; reflexivity).
    rewrite Hd, IH, Hdec, <- app_assoc. reflexivity.
Qed.

(** A record whose token stream is corrupt stops the loop with the error
    of the decoder; nothing of the record is written. *)
Lemma decompress_records_corrupt (orig : Z) (comp : list byte) (e : error) :
  (Z.of_nat (length comp) < 18446744073709551616)%Z ->
  decompress comp = Throw e ->
  forall k rest out,
    decompress_records (S k) (record_bytes (orig, comp) ++ rest) out
    = (out, Throw e).
Proof.
  intros Hlen He k rest out. cbn [decompress_records].
  unfold record_bytes. cbn [fst snd].
  rewrite <- !app_assoc.
  rewrite (fread_app 8 (le_bytes 8 orig) _ (length_le_bytes 8 orig)).
  rewrite length_le_bytes. cbn [Nat.ltb Nat.leb].
  rewrite (fread_app 8 (le_bytes 8 _) _ (length_le_bytes 8 _)).
  rewrite length_le_bytes. cbn [Nat.ltb Nat.leb].
  rewrite le_value_u64 by lia. rewrite Nat2Z.id.
  rewrite (fread_app (length comp) comp _ eq_refl).
  rewrite Z.eqb_refl, andb_false_r. rewrite He. reflexivity.
Qed.

(** The header of a container, read. *)
Lemma read_header (count : nat) (body : list byte) :
  (Z.of_nat count < 4294967296)%Z ->
  read_and_decompress_file (magic ++ le_bytes 4 (Z.of_nat count) ++ body)
  = let '(out, r) := decompress_records count body [] in (Some out, r).
Proof.
  intros Hcnt. unfold read_and_decompress_file.
  rewrite (fread_app 4 magic _ eq_refl).
  change (length magic <? 4) with false. cbv iota.
  destruct (list_eq_dec byte_eq_dec magic magic) as [_|Hne];
    [|contradiction].
  rewrite (fread_app 4 (le_bytes 4 _) _ (length_le_bytes 4 _)).
  rewrite length_le_bytes. change (4 <? 4) with false. cbv iota.
  rewrite le_value_u32 by lia. rewrite Nat2Z.id. reflexivity.
Qed.

(** [X7] Bytes that follow the last record of a container are not read:
    the container with anything appended decompresses as the container
    does. *)
Theorem trailing_bytes_ignored (rs : list (Z * list byte)) (junk : list byte) :
  (Z.of_nat (length rs) < 4294967296)%Z ->
  Forall well_formed_record rs ->
  read_and_decompress_file (container_of rs ++ junk)
  = (Some (concat (map (fun r => decoded (snd r)) rs)), Ok tt)
  /\ read_and_decompress_file (container_of rs ++ junk)
     = read_and_decompress_file (container_of rs).
Proof.
  intros Hcnt Hrs.
  assert (H : forall rest,
             read_and_decompress_file (container_of rs ++ rest)
             = (Some (concat (map (fun r => decoded (snd r)) rs)), Ok tt)).
  { intros rest. unfold container_of. rewrite <- !app_assoc.
    rewrite read_header by exact Hcnt.
    pose proof (decompress_records_app rs Hrs 0 rest []) as Hr.
    rewrite Nat.add_0_r in Hr. rewrite Hr. reflexivity. }
  split; [apply H|].
  rewrite H. rewrite <- (app_nil_r (container_of rs)) at 1.
  rewrite H. reflexivity.
Qed.

Lemma trailing_bytes_ignored_witness :
  read_and_decompress_file
    (container_of [(1%Z, [x00; x41])] ++ [x01; x02; x03])
  = (Some (concat (map (fun r => decoded (snd r)) [(1%Z, [x00; x41])])),
     Ok tt)
  /\ read_and_decompress_file
       (container_of [(1%Z, [x00; x41])] ++ [x01; x02; x03])
     = read_and_decompress_file (container_of [(1%Z, [x00; x41])]).
Proof.
  apply (trailing_bytes_ignored [(1%Z, [x00; x41])] [x01; x02; x03]).
  - simpl. lia.
  - constructor; [|constructor]. split; [simpl; lia|].
    exists [x41]. reflexivity.
Defined.

(** [X8] When the token stream of a record is corrupt, the run stops
    with the error of the decoder and status 1, and the output file is
    left with the decoded bytes of the records before it. *)
Theorem corrupt_record_leaves_partial_output
    (before after : list (Z * list byte)) (orig : Z) (comp : list byte)
    (e : error) :
  (Z.of_nat (length (before ++ (orig, comp) :: after)) < 4294967296)%Z ->
  Forall well_formed_record before ->
  (Z.of_nat (length comp) < 18446744073709551616)%Z ->
  decompress comp = Throw e ->
  let partial := concat (map (fun r => decoded (snd r)) before) in
  read_and_decompress_file (container_of (before ++ (orig, comp) :: after))
  = (Some partial, Throw e)
  /\ main_decompress (container_of (before ++ (orig, comp) :: after))
     = Ok {| exit_code := 1; cout := "";
             cerr := "Error: " ++ what e ++ nl;
             out_file := Some partial |}.
Proof.
  intros Hcnt Hbefore Hlen He partial.
  assert (H : read_and_decompress_file
                (container_of (before ++ (orig, comp) :: after))
              = (Some partial, Throw e)).
  { unfold container_of. rewrite read_header by exact Hcnt.
    rewrite flat_map_app, length_app. cbn [flat_map length].
    rewrite decompress_records_app by exact Hbefore.
    rewrite (decompress_records_corrupt orig comp e Hlen He).
    reflexivity. }
  split; [exact H|]. unfold main_decompress. rewrite H. reflexivity.
Qed.

Lemma corrupt_record_leaves_partial_output_witness :
  let partial := concat (map (fun r => decoded (snd r)) [(1%Z, [x00; x41])]) in
  read_and_decompress_file
    (container_of ([(1%Z, [x00; x41])] ++ (1%Z, [x02]) :: []))
  = (Some partial, Throw unknown_token_flag)
  /\ main_decompress
       (container_of ([(1%Z, [x00; x41])] ++ (1%Z, [x02]) :: []))
     = Ok {| exit_code := 1; cout := "";
             cerr := "Error: " ++ what unknown_token_flag ++ nl;
             out_file := Some partial |}.
Proof.
  apply (corrupt_record_leaves_partial_output
           [(1%Z, [x00; x41])] [] 1%Z [x02] unknown_token_flag).
  - simpl. lia.
  - constructor; [|constructor]. split; [simpl; lia|].
    exists [x41]. reflexivity.
  - simpl. lia.
  - reflexivity.
Defined.

(** ** Truncated containers *)

Lemma firstn_app_ge {A : Type} (k : nat) (a b : list A) :
  length a <= k -> firstn k (a ++ b) = a ++ firstn (k - length a) b.
Proof.
  intros H. rewrite firstn_app, firstn_all2 by exact H. reflexivity.
Qed.

Lemma fread_short (size k : nat) (f : file) :
  k < size -> (length (fst (fread size (firstn k f))) <? size) = true.
Proof.
  intros H. unfold fread. cbn [fst]. rewrite !length_firstn.
  apply Nat.ltb_lt. lia.
Qed.

(** A record list cut short stops the record loop with a format error. *)
Lemma decompress_records_truncated (rs : list (Z * list byte)) :
  Forall well_formed_record rs ->
  forall k out,
    k < length (flat_map record_bytes rs) ->
    exists out' e,
      decompress_records (length rs) (firstn k (flat_map record_bytes rs)) out
      = (out', Throw e)
      /\ kind e = FormatError.
Proof.
  induction 1 as [|[orig comp] rs [Hlen [d Hd]] _ IH]; intros k out Hk.
  - simpl in Hk. lia.
  - cbn [length flat_map decompress_records].
    assert (Hrec : length (record_bytes (orig, comp)) = 16 + length comp)
      by (unfold record_bytes; rewrite !length_app, !length_le_bytes;
          simpl; lia).
    cbn [flat_map] in Hk. rewrite length_app, Hrec in Hk.
    unfold record_bytes at 1. cbn [fst snd] in *.
    rewrite <- !app_assoc.
    destruct (Nat.lt_ge_cases k 8) as [H8|H8].
    { pose proof (fread_short 8 k
                    (le_bytes 8 orig ++ le_bytes 8 (Z.of_nat (length comp))
                       ++ comp ++ flat_map record_bytes rs) H8) as Hs.
      destruct (fread 8 _) as [origb f1]. cbn [fst] in Hs. rewrite Hs.
      exists out, bad_file. split; reflexivity. }
    rewrite firstn_app_ge by (rewrite length_le_bytes; exact H8).
    rewrite length_le_bytes.
    rewrite (fread_app 8 (le_bytes 8 orig) _ (length_le_bytes 8 orig)).
    rewrite length_le_bytes. change (8 <? 8) with false. cbv iota.
    destruct (Nat.lt_ge_cases (k - 8) 8) as [H16|H16].
    { pose proof (fread_short 8 (k - 8)
                    (le_bytes 8 (Z.of_nat (length comp))
                       ++ comp ++ flat_map record_bytes rs) H16) as Hs.
      destruct (fread 8 _) as [compb f2]. cbn [fst] in Hs. rewrite Hs.
      exists out, bad_file. split; reflexivity. }
    rewrite firstn_app_ge by (rewrite length_le_bytes; exact H16).
    rewrite length_le_bytes.
    rewrite (fread_app 8 (le_bytes 8 _) _ (length_le_bytes 8 _)).
    rewrite length_le_bytes. change (8 <? 8) with false. cbv iota.
    rewrite le_value_u64 by lia. rewrite Nat2Z.id.
    destruct (Nat.lt_ge_cases (k - 8 - 8) (length comp)) as [Hc|Hc].
    { unfold fread. rewrite !length_firstn, length_app.
      destruct (Z.eqb_spec (Z.of_nat (length comp)) 0) as [H0|_]; [lia|].
      destruct (Z.eqb_spec
                  (Z.of_nat
                     (Nat.min (length comp)
                        (Nat.min (k - 8 - 8)
                           (length comp
                            + length (flat_map record_bytes rs)))))
                  (Z.of_nat (length comp))) as [Heq|_]; [lia|].
      cbn [negb andb].
      exists out, bad_file_read. split; reflexivity. }
    rewrite firstn_app_ge by exact Hc.
    rewrite (fread_app (length comp) comp _ eq_refl).
    rewrite Z.eqb_refl, andb_false_r. rewrite Hd.
    apply IH. lia.
Qed.

(** [X9] A container cut short at any place fails with a format error
    and status 1: no proper prefix of a container passes for a complete
    one. *)
Theorem truncated_container_rejected (rs : list (Z * list byte)) (k : nat) :
  (Z.of_nat (length rs) < 4294967296)%Z ->
  Forall well_formed_record rs ->
  k < length (container_of rs) ->
  exists out e,
    read_and_decompress_file (firstn k (container_of rs)) = (out, Throw e)
    /\ kind e = FormatError
    /\ main_decompress (firstn k (container_of rs))
       = Ok {| exit_code := 1; cout := "";
               cerr := "Error: " ++ what e ++ nl; out_file := out |}.
Proof.
  intros Hcnt Hrs Hk.
  assert (H : exists out e,
             read_and_decompress_file (firstn k (container_of rs))
             = (out, Throw e) /\ kind e = FormatError).
  { unfold container_of in *.
    rewrite !length_app, length_le_bytes in Hk.
    change (length magic) with 4 in Hk.
    destruct (Nat.lt_ge_cases k 4) as [H4|H4].
    { exists None, bad_file. split; [|reflexivity].
      unfold read_and_decompress_file.
      pose proof (fread_short 4 k
                    (magic ++ le_bytes 4 (Z.of_nat (length rs))
                       ++ flat_map record_bytes rs) H4) as Hs.
      destruct (fread 4 _) as [tag f1]. cbn [fst] in Hs. rewrite Hs.
      reflexivity. }
    rewrite firstn_app_ge by exact H4. change (length magic) with 4.
    destruct (Nat.lt_ge_cases (k - 4) 4) as [H8|H8].
    { exists None, bad_file_header. split; [|reflexivity].
      unfold read_and_decompress_file.
      rewrite (fread_app 4 magic _ eq_refl).
      change (length magic <? 4) with false. cbv iota.
      destruct (list_eq_dec byte_eq_dec magic magic) as [_|Hne];
        [|contradiction].
      pose proof (fread_short 4 (k - 4)
                    (le_bytes 4 (Z.of_nat (length rs))
                       ++ flat_map record_bytes rs) H8) as Hs.
      destruct (fread 4 _) as [cntb f2]. cbn [fst] in Hs. rewrite Hs.
      reflexivity. }
    rewrite firstn_app_ge by (rewrite length_le_bytes; exact H8).
    rewrite length_le_bytes.
    rewrite read_header by exact Hcnt.
    destruct (decompress_records_truncated rs Hrs (k - 4 - 4) [])
      as (out' & e & Hr & Hkind); [lia|].
    rewrite Hr. exists (Some out'), e. split; [reflexivity|exact Hkind]. }
  destruct H as (out & e & Hr & Hkind).
  exists out, e. split; [exact Hr|]. split; [exact Hkind|].
  unfold main_decompress. rewrite Hr. reflexivity.
Qed.

Lemma truncated_container_rejected_witness :
  exists out e,
    read_and_decompress_file
      (firstn 25 (container_of [(1%Z, [x00; x41])])) = (out, Throw e)
    /\ kind e = FormatError
    /\ main_decompress (firstn 25 (container_of [(1%Z, [x00; x41])]))
       = Ok {| exit_code := 1; cout := "";
               cerr := "Error: " ++ what e ++ nl; out_file := out |}.
Proof.
  apply (truncated_container_rejected [(1%Z, [x00; x41])] 25).
  - simpl. lia.
  - constructor; [|constructor]. split; [simpl; lia|].
    exists [x41]. reflexivity.
  - simpl. lia.
Defined.

(** ** Writing a container *)

Lemma length_container_of (rs : list (Z * list byte)) :
  length (container_of rs)
  = 8 + 16 * length rs + length (concat (map snd rs)).
Proof.
  unfold container_of. rewrite !length_app, length_le_bytes.
  change (length magic) with 4.
  assert (H : length (flat_map record_bytes rs)
              = 16 * length rs + length (concat (map snd rs))).
  { induction rs as [|r rs IH]; [reflexivity|].
    cbn [flat_map map concat length]. rewrite !length_app, IH.
    unfold record_bytes. rewrite !length_app, !length_le_bytes. lia. }
  lia.
Qed.

Lemma map_snd_combine {A B : Type} (l : list A) (l' : list B) :
  length l = length l' -> map snd (combine l l') = l'.
Proof.
  revert l'. induction l as [|a l IH]; intros [|b l'] H;
    try discriminate; [reflexivity|].
  simpl. rewrite IH by (simpl in H; lia). reflexivity.
Qed.

(** [X10] [write_all], given as many sizes as chunks, fewer than [2^32]
    chunks and chunks of less than [2^64] bytes, writes the tag, the
    count and, for every chunk in order, its declared size, its length
    and its bytes: 8 bytes, 16 per chunk, and the bytes of the chunks. *)
Theorem write_all_layout (chunks : list (list byte)) (origs : list Z) :
  length origs = length chunks ->
  (Z.of_nat (length chunks) < 4294967296)%Z ->
  Forall (fun ch => (Z.of_nat (length ch) < 18446744073709551616)%Z) chunks ->
  write_all chunks origs = Ok (container_of (combine origs chunks))
  /\ length (container_of (combine origs chunks))
     = 8 + 16 * length chunks + length (concat chunks).
Proof.
  intros Hlen Hcnt Hsz. split.
  - unfold write_all.
    rewrite (write_records_layout chunks origs Hlen Hsz (length chunks) 0)
      by reflexivity.
    cbn [bind skipn]. unfold container_of, u32.
    rewrite Z.mod_small by lia.
    rewrite length_combine, Hlen, Nat.min_id. reflexivity.
  - rewrite length_container_of, length_combine, Hlen, Nat.min_id.
    rewrite map_snd_combine by exact Hlen. reflexivity.
Qed.

Lemma write_all_layout_witness :
  write_all [[x00; x41]; []] [7%Z; 9%Z]
  = Ok (container_of (combine [7%Z; 9%Z] [[x00; x41]; []]))
  /\ length (container_of (combine [7%Z; 9%Z] [[x00; x41]; []]))
     = 8 + 16 * length [[x00; x41]; []]
       + length (concat [[x00; x41]; ([] : list byte)]).
Proof.
  apply (write_all_layout [[x00; x41]; []] [7%Z; 9%Z]).
  - reflexivity.
  - simpl. lia.
  - repeat constructor; simpl; lia.
Defined.

(** ** The container [main] writes *)

Lemma sum_lengths_concat {A : Type} (g : A -> list byte) (l : list A) :
  fold_right Z.add 0%Z (map (fun x => Z.of_nat (length (g x))) l)
  = Z.of_nat (length (concat (map g l))).
Proof.
  induction l as [|x l IH]; [reflexivity|].
  cbn [map fold_right concat]. rewrite IH, length_app. lia.
Qed.

Lemma length_concat_compressed (f : file) (size : nat) (l : list nat) :
  length (concat (map (fun j => compressed (chunk_of f size j)) l))
  <= 2 * length (concat (map (chunk_of f size) l)).
Proof.
  induction l as [|j l IH]; [simpl; lia|].
  cbn [map concat]. rewrite !length_app.
  destruct (compress_compressed (chunk_of f size j)) as (_ & _ & _ & Hsz).
  lia.
Qed.

(** The size [main] declares for a chunk is the length of the chunk. *)
Lemma original_size_chunk (f : file) (size count j : nat) :
  1 <= size ->
  (Z.of_nat (length f) < 18446744073709551616)%Z ->
  length f <= count * size < length f + size ->
  j < count ->
  original_size (Z.of_nat (length f)) (Z.of_nat size) (Z.of_nat count) j
  = Z.of_nat (length (chunk_of f size j)).
Proof.
  intros Hsize Hlen Hrange Hj.
  rewrite length_chunk_of. unfold original_size, u64.
  rewrite <- Nat2Z.inj_mul.
  assert (Hoff : j * size + size <= count * size)
    by (replace (j * size + size) with (S j * size) by lia;
        apply Nat.mul_le_mono_r; lia).
  rewrite (Z.mod_small (Z.of_nat (j * size))) by lia.
  rewrite (Z.mod_small (Z.of_nat (length f) - Z.of_nat (j * size))) by lia.
  destruct (Z.eqb_spec (Z.of_nat j) (Z.of_nat count - 1)) as [Hlast|Hnot].
  - assert (j = count - 1) by lia. subst j.
    replace (count * size) with ((count - 1) * size + size) in Hrange
      by (replace count with (S (count - 1)) at 3 by lia; simpl; lia).
    lia.
  - assert (Hnext : S (S j) * size <= count * size)
      by (apply Nat.mul_le_mono_r; lia).
    simpl in Hnext. lia.
Qed.

(** The records of the container [main] writes, in the range where no
    integer of the run wraps around. *)
Lemma main_compress_records (f : file) (chunk_size : Z) :
  f <> [] ->
  (1 <= chunk_size)%Z ->
  (Z.of_nat (length f) + chunk_size <= 18446744073709551616)%Z ->
  (2 * Z.of_nat (length f) < 18446744073709551616)%Z ->
  (ceil_div (Z.of_nat (length f)) chunk_size < 4294967296)%Z ->
  let size := Z.to_nat chunk_size in
  let count := Z.to_nat (ceil_div (Z.of_nat (length f)) chunk_size) in
  length f <= count * size < length f + size
  /\ main_compress f chunk_size
     = Ok {| c_exit_code := 0; c_cerr := "";
             c_out_file := Some (container_of (records_of f size count)) |}.
Proof.
  intros Hne Hc Hsum Hdouble Hcount size count.
  subst count. rewrite <- (Z2Nat.id chunk_size) by lia. fold size.
  rewrite <- (Z2Nat.id chunk_size) in Hsum, Hcount by lia.
  apply main_compress_in_range; try assumption. lia.
Qed.

(** [X11] In the container [main] writes, the size a record declares is
    the length of what its token stream decodes to, record [j] decodes to
    chunk [j] of the input whatever the other records hold, there are as
    many records as the chunk count says, and the declared sizes add up
    to the length of the input. *)
Theorem main_compress_declared_sizes (f : file) (chunk_size : Z) :
  f <> [] ->
  (1 <= chunk_size)%Z ->
  (Z.of_nat (length f) + chunk_size <= 18446744073709551616)%Z ->
  (2 * Z.of_nat (length f) < 18446744073709551616)%Z ->
  (ceil_div (Z.of_nat (length f)) chunk_size < 4294967296)%Z ->
  exists rs,
    main_compress f chunk_size
    = Ok {| c_exit_code := 0; c_cerr := "";
            c_out_file := Some (container_of rs) |}
    /\ Z.of_nat (length rs) = ceil_div (Z.of_nat (length f)) chunk_size
    /\ Forall (fun r => fst r = Z.of_nat (length (decoded (snd r)))) rs
    /\ map (fun r => decoded (snd r)) rs
       = map (chunk_of f (Z.to_nat chunk_size)) (seq 0 (length rs))
    /\ fold_right Z.add 0%Z (map fst rs) = Z.of_nat (length f).
Proof.
  intros Hne Hc Hsum Hdouble Hcount.
  destruct (main_compress_records f chunk_size Hne Hc Hsum Hdouble Hcount)
    as [Hrange Hmain].
  set (size := Z.to_nat chunk_size) in *.
  set (count := Z.to_nat (ceil_div (Z.of_nat (length f)) chunk_size)) in *.
  assert (HN : (0 <= ceil_div (Z.of_nat (length f)) chunk_size)%Z)
    by (apply Z.div_pos; lia).
  assert (Hsize : 1 <= size) by (unfold size; lia).
  assert (Horig : forall j, In j (seq 0 count) ->
            original_size (Z.of_nat (length f)) (Z.of_nat size)
              (Z.of_nat count) j
            = Z.of_nat (length (chunk_of f size j))).
  { intros j Hj. apply in_seq in Hj.
    apply original_size_chunk; try lia. }
  exists (records_of f size count).
  split; [exact Hmain|]. unfold records_of.
  rewrite length_map, length_seq.
  split; [unfold count; lia|]. split; [|split].
  - apply Forall_forall. intros r Hin.
    apply in_map_iff in Hin. destruct Hin as (j & <- & Hj). cbn [fst snd].
    destruct (compress_compressed (chunk_of f size j)) as (_ & -> & _).
    apply Horig, Hj.
  - rewrite map_map. cbn [snd]. apply map_ext.
    intros j. apply compress_compressed.
  - rewrite map_map. cbn [fst].
    rewrite (map_ext_in _ (fun j => Z.of_nat (length (chunk_of f size j))))
      by exact Horig.
    rewrite sum_lengths_concat, concat_chunks by lia.
    reflexivity.
Qed.

Lemma main_compress_declared_sizes_witness :
  exists rs,
    main_compress (bytes_of "ABABABABAB") 4
    = Ok {| c_exit_code := 0; c_cerr := "";
            c_out_file := Some (container_of rs) |}
    /\ Z.of_nat (length rs)
       = ceil_div (Z.of_nat (length (bytes_of "ABABABABAB"))) 4
    /\ Forall (fun r => fst r = Z.of_nat (length (decoded (snd r)))) rs
    /\ map (fun r => decoded (snd r)) rs
       = map (chunk_of (bytes_of "ABABABABAB") (Z.to_nat 4))
           (seq 0 (length rs))
    /\ fold_right Z.add 0%Z (map fst rs)
       = Z.of_nat (length (bytes_of "ABABABABAB")).
Proof.
  apply (main_compress_declared_sizes (bytes_of "ABABABABAB") 4).
  - discriminate.
  - lia.
  - simpl. lia.
  - simpl. lia.
  - vm_compute. reflexivity.
Defined.

(** [X12] The container [main] writes is at most 8 bytes, 16 bytes per
    chunk and twice the length of the input long. *)
Theorem main_compress_container_size (f : file) (chunk_size : Z) :
  f <> [] ->
  (1 <= chunk_size)%Z ->
  (Z.of_nat (length f) + chunk_size <= 18446744073709551616)%Z ->
  (2 * Z.of_nat (length f) < 18446744073709551616)%Z ->
  (ceil_div (Z.of_nat (length f)) chunk_size < 4294967296)%Z ->
  exists container,
    main_compress f chunk_size
    = Ok {| c_exit_code := 0; c_cerr := "";
            c_out_file := Some container |}
    /\ (Z.of_nat (length container)
        <= 8 + 16 * ceil_div (Z.of_nat (length f)) chunk_size
           + 2 * Z.of_nat (length f))%Z.
Proof.
  intros Hne Hc Hsum Hdouble Hcount.
  destruct (main_compress_records f chunk_size Hne Hc Hsum Hdouble Hcount)
    as [Hrange Hmain].
  set (size := Z.to_nat chunk_size) in *.
  set (count := Z.to_nat (ceil_div (Z.of_nat (length f)) chunk_size)) in *.
  assert (HN : (0 <= ceil_div (Z.of_nat (length f)) chunk_size)%Z)
    by (apply Z.div_pos; lia).
  eexists. split; [exact Hmain|].
  rewrite length_container_of. unfold records_of.
  rewrite length_map, length_seq, map_map. cbn [snd].
  pose proof (length_concat_compressed f size (seq 0 count)) as Hsz.
  rewrite concat_chunks in Hsz by lia. simpl skipn in Hsz.
  unfold count in *. lia.
Qed.

Lemma main_compress_container_size_witness :
  exists container,
    main_compress (bytes_of "ABABABABAB") 4
    = Ok {| c_exit_code := 0; c_cerr := "";
            c_out_file := Some container |}
    /\ (Z.of_nat (length container)
        <= 8 + 16 * ceil_div (Z.of_nat (length (bytes_of "ABABABABAB"))) 4
           + 2 * Z.of_nat (length (bytes_of "ABABABABAB")))%Z.
Proof.
  apply (main_compress_container_size (bytes_of "ABABABABAB") 4).
  - discriminate.
  - lia.
  - simpl. lia.
  - simpl. lia.
  - vm_compute. reflexivity.
Defined.

(** * Further properties of the chunking *)

(** The chunk the first loop of [main] reads at index [i]. *)
Lemma read_chunk_of (f : file) (size i : nat) :
  1 <= size ->
  (Z.of_nat (length f) < 18446744073709551616)%Z ->
  i * size < length f ->
  read_file_chunk f (u64 (Z.of_nat i * Z.of_nat size))
    (read_size (Z.of_nat (length f)) (Z.of_nat size) i)
  = chunk_of f size i.
Proof.
  intros Hsize Hlen Hoff. unfold read_size, read_file_chunk, u64.
  rewrite <- Nat2Z.inj_mul.
  rewrite (Z.mod_small (Z.of_nat (i * size))) by lia.
  rewrite (Z.mod_small (Z.of_nat (length f) - Z.of_nat (i * size))) by lia.
  rewrite Nat2Z.id.
  replace (Z.min (Z.of_nat size)
             (Z.of_nat (length f) - Z.of_nat (i * size)))
    with (Z.of_nat (Nat.min size (length (skipn (i * size) f))))
    by (rewrite length_skipn; lia).
  rewrite Nat2Z.id, firstn_min_length. reflexivity.
Qed.

(** [X15] Where [fsize + chunk_size - 1] does not wrap around, the
    chunks the first loop of [main] reads, one after the other, are the
    input file; no chunk is empty and none is longer than the chunk
    size. *)
Theorem chunks_tile_file (f : file) (chunk_size : Z) :
  f <> [] ->
  (1 <= chunk_size)%Z ->
  (Z.of_nat (length f) + chunk_size <= 18446744073709551616)%Z ->
  let count := Z.to_nat (num_chunks_of (file_size f) chunk_size) in
  let chunks :=
    map (fun i => read_file_chunk f (u64 (Z.of_nat i * chunk_size))
                    (read_size (file_size f) chunk_size i))
        (seq 0 count) in
  concat chunks = f
  /\ Forall (fun ch => 1 <= length ch
                       /\ (Z.of_nat (length ch) <= chunk_size)%Z) chunks.
Proof.
  intros Hne Hc Hsum count chunks.
  assert (Hlen : 0 < length f) by (destruct f; [contradiction|simpl; lia]).
  assert (Hfs : file_size f = Z.of_nat (length f))
    by (unfold file_size, u64; apply Z.mod_small; lia).
  destruct (num_chunks_in_range (Z.of_nat (length f)) chunk_size)
    as [Hnum Hceil]; [lia|lia|lia|].
  set (N := ceil_div (Z.of_nat (length f)) chunk_size) in *.
  set (size := Z.to_nat chunk_size).
  assert (Hcs : chunk_size = Z.of_nat size) by (unfold size; lia).
  assert (HN : (0 <= N)%Z) by (apply Z.div_pos; lia).
  assert (Hcount : Z.of_nat count = N)
    by (unfold count; rewrite Hfs, Hnum; apply Z2Nat.id; exact HN).
  assert (Hprod : Z.of_nat (count * size) = (chunk_size * N)%Z)
    by (rewrite Nat2Z.inj_mul, Hcount, Hcs; lia).
  assert (Hrange : length f <= count * size < length f + size) by lia.
  assert (Hin : forall i, In i (seq 0 count) -> i * size < length f).
  { intros i Hi. apply in_seq in Hi.
    assert (S i * size <= count * size) by (apply Nat.mul_le_mono_r; lia).
    simpl in *. lia. }
  assert (Hchunks : chunks = map (chunk_of f size) (seq 0 count)).
  { unfold chunks. apply map_ext_in. intros i Hi.
    rewrite Hfs, Hcs. apply read_chunk_of; [lia|lia|apply Hin, Hi]. }
  rewrite Hchunks. split.
  - rewrite concat_chunks by lia. reflexivity.
  - apply Forall_forall. intros ch Hch. apply in_map_iff in Hch.
    destruct Hch as (i & <- & Hi). rewrite length_chunk_of.
    specialize (Hin i Hi). lia.
Qed.

Lemma chunks_tile_file_witness :
  let f := bytes_of "ABABABABAB" in
  let count := Z.to_nat (num_chunks_of (file_size f) 4) in
  let chunks :=
    map (fun i => read_file_chunk f (u64 (Z.of_nat i * 4))
                    (read_size (file_size f) 4 i))
        (seq 0 count) in
  concat chunks = f
  /\ Forall (fun ch => 1 <= length ch /\ (Z.of_nat (length ch) <= 4)%Z) chunks.
Proof.
  apply (chunks_tile_file (bytes_of "ABABABABAB") 4).
  - discriminate.
  - lia.
  - simpl. lia.
Defined.

(** [X16] A chunk count in the header that exceeds the records present
    is found out when the records run out: the run stops with a format
    error after it has written the decoded bytes of all the records that
    are there. *)
Theorem missing_records_detected
    (rs : list (Z * list byte)) (missing : nat) :
  (Z.of_nat (length rs + S missing) < 4294967296)%Z ->
  Forall well_formed_record rs ->
  read_and_decompress_file
    (magic ++ le_bytes 4 (Z.of_nat (length rs + S missing))
       ++ flat_map record_bytes rs)
  = (Some (concat (map (fun r => decoded (snd r)) rs)), Throw bad_file)
  /\ kind bad_file = FormatError.
Proof.
  intros Hcnt Hrs. split; [|reflexivity].
  rewrite read_header by exact Hcnt.
  rewrite <- (app_nil_r (flat_map record_bytes rs)).
  rewrite decompress_records_app by exact Hrs. reflexivity.
Qed.

Lemma missing_records_detected_witness :
  read_and_decompress_file
    (magic ++ le_bytes 4 (Z.of_nat (length [(1%Z, [x00; x41])] + 1))
       ++ flat_map record_bytes [(1%Z, [x00; x41])])
  = (Some (concat (map (fun r => decoded (snd r)) [(1%Z, [x00; x41])])),
     Throw bad_file)
  /\ kind bad_file = FormatError.
Proof.
  apply (missing_records_detected [(1%Z, [x00; x41])] 0).
  - simpl. lia.
  - constructor; [|constructor]. split; [simpl; lia|].
    exists [x41]. reflexivity.
Defined.

(** ** Runs of one byte *)

Section Runs.

Variable b : byte.
Variable n : nat.

Lemma run_match_at (pos L : nat) :
  1 <= pos -> L <= 255 -> pos + L <= n ->
  match_at codec (repeat b n) pos (pos - 1) L.
Proof.
  intros Hpos HL Hn. unfold match_at.
  rewrite repeat_length.
  split; [exact HL|]. split; [exact Hn|].
  intros j Hj. rewrite !nth_error_repeat by lia. reflexivity.
Qed.

(** After the first byte of a run, the search finds the rest of the run,
    up to 255 bytes. *)
Lemma run_find_best (pos bo bl : nat) :
  1 <= pos < n ->
  find_best codec (repeat b n) pos = Ok (bo, bl) ->
  bl = Nat.min 255 (n - pos).
Proof.
  intros Hpos Hf.
  assert (Hlen : length (repeat b n) = n) by apply repeat_length.
  assert (Hlow : Nat.min 255 (n - pos) <= bl).
  { apply (find_best_longest codec (repeat b n) pos bo bl ltac:(lia) Hf (pos - 1)).
    - unfold in_window. change (window_size codec) with 4096. lia.
    - apply run_match_at; lia. }
  destruct (find_best_spec codec (repeat b n) pos) as (bo' & bl' & Hf' & Hbest);
    [lia|].
  rewrite Hf in Hf'. inversion Hf'; subst bo' bl'.
  destruct (best_in_candidate codec (repeat b n) pos bo bl) as (i & _ & _ & _ & Hm);
    [lia|exact Hbest|lia|].
  destruct Hm as (Hlook & Hend & _).
  pose proof codec_lookahead_fits. lia.
Qed.

(** The tokens of a run from its second byte on: one match for every 255
    bytes, and a last match or up to two literals. *)
Lemma run_trace_size (pos : nat) (ts : list token) :
  compress_trace codec (repeat b n) pos ts ->
  1 <= pos ->
  length (flat_map token_bytes ts) <= 4 * ((n - pos) / 255) + 4.
Proof.
  assert (Hlen : length (repeat b n) = n) by apply repeat_length.
  induction 1 as [|pos bo bl c ts Hpos Hf Hbl Hc Htr IH
                  |pos bo bl ts Hpos Hf Hbl Htr IH]; intros H1.
  - simpl. lia.
  - rewrite (run_find_best pos bo bl) in Hbl by (try exact Hf; lia).
    destruct (compress_trace_size codec (repeat b n) (S pos) ts Htr) as [Hsz _].
    cbn [flat_map token_bytes]. rewrite length_app. simpl length. lia.
  - pose proof (run_find_best pos bo bl ltac:(lia) Hf) as Hbest.
    cbn [flat_map token_bytes]. rewrite length_app.
    unfold match_bytes at 1. simpl length.
    destruct (Nat.le_gt_cases 255 (n - pos)) as [Hfull|Hlast].
    + rewrite Nat.min_l in Hbest by exact Hfull. subst bl.
      specialize (IH ltac:(lia)).
      replace (n - pos) with ((n - (pos + 255)) + 1 * 255) by lia.
      rewrite Nat.div_add by lia. lia.
    + rewrite Nat.min_r in Hbest by lia. subst bl.
      destruct (compress_trace_size codec (repeat b n) (pos + (n - pos)) ts Htr)
        as [Hsz _].
      lia.
Qed.

End Runs.

(** [X17] A run of [n] equal bytes is encoded in at most
    [6 + 4 * ((n - 1) / 255)] bytes: a literal for the first byte, a match
    of offset 1 or more for every 255 bytes that follow, and a last match
    or two literals for the rest. *)
Theorem compress_run_size (b : byte) (n : nat) :
  exists out,
    compress codec (repeat b n) = Ok out
    /\ length out <= 6 + 4 * ((n - 1) / 255)
    /\ decompress out = Ok (repeat b n).
Proof.
  destruct (compress_trace_exists codec (repeat b n)) as (ts & Hc & Htr).
  destruct (compress_decompress (repeat b n)) as (out & Hc' & Hd).
  rewrite Hc in Hc'. inversion Hc'; subst out. clear Hc'.
  exists (flat_map token_bytes ts). split; [exact Hc|]. split; [|exact Hd].
  inversion Htr as [Hn|pos bo bl c ts' Hpos Hf Hbl Hnth Htr' Hp Hts
                   |pos bo bl ts' Hpos Hf Hbl Htr' Hp Hts].
  - simpl. lia.
  - subst ts. cbn [flat_map token_bytes]. rewrite length_app. simpl length.
    pose proof (run_trace_size b n 1 ts' Htr' (Nat.le_refl 1)). lia.
  - exfalso. subst ts.
    destruct (find_best_spec codec (repeat b n) 0) as (bo' & bl' & Hf' & Hbest);
      [lia|].
    rewrite Hf in Hf'. inversion Hf'; subst bo' bl'.
    destruct (best_in_candidate codec (repeat b n) 0 bo bl)
      as (i & Hi & _); [lia|exact Hbest|lia|].
    unfold in_window in Hi. lia.
Qed.

(** * The thread pool *)

Section PoolInvariants.

Variable T : Type.

Lemma running_set_worker (ws : list (worker T)) (w : nat) (old x : worker T) :
  nth_error ws w = Some old ->
  running ws
  = running (firstn w ws) ++ running [old] ++ running (skipn (S w) ws)
  /\ running (set_worker ws w x)
     = running (firstn w ws) ++ running [x] ++ running (skipn (S w) ws)
  /\ length (set_worker ws w x) = length ws.
Proof.
  intros H. pose proof (firstn_skipn_middle w ws H) as Hsplit.
  unfold running, set_worker. split; [|split].
  - rewrite <- Hsplit at 1. rewrite flat_map_app. cbn [flat_map].
    rewrite app_nil_r. reflexivity.
  - rewrite flat_map_app. cbn [flat_map]. rewrite app_nil_r. reflexivity.
  - assert (Hlt : w < length ws)
      by (apply nth_error_Some; rewrite H; discriminate).
    rewrite length_app, length_firstn. cbn [length].
    rewrite length_skipn. lia.
Qed.

(** One step keeps the order of the queue and the account of the jobs
    taken. *)
Lemma pool_step_inv (p p' : pool T) (e : event T) :
  pool_step p e = Some p' ->
  taken p' ++ tasks p' = (taken p ++ tasks p) ++ enqueued [e]
  /\ (Permutation (done p ++ running (workers p)) (taken p) ->
      Permutation (done p' ++ running (workers p')) (taken p'))
  /\ length (workers p') = length (workers p).
Proof.
  destruct e as [t|w|w|w|]; cbn [pool_step enqueued flat_map].
  - intros H. inversion H; subst p'. cbn [tasks stop workers taken done].
    rewrite app_assoc. auto.
  - destruct (nth_error (workers p) w) as [[|job|]|] eqn:Hw;
      try discriminate.
    destruct (tasks p) as [|job rest] eqn:Ht; [discriminate|].
    intros H. inversion H; subst p'. cbn [tasks stop workers taken done].
    destruct (running_set_worker (workers p) w Waiting (Running job) Hw)
      as (Hold & Hnew & Hlen).
    rewrite ?app_nil_r, <- ?app_assoc. split; [reflexivity|].
    split; [|exact Hlen].
    rewrite Hold, Hnew. cbn [running flat_map app]. intros Hperm.
    rewrite app_assoc. apply Permutation_sym.
    eapply Permutation_trans; [apply Permutation_sym,
                                Permutation_cons_append|].
    apply Permutation_cons_app. rewrite <- app_assoc.
    apply Permutation_sym, Hperm.
  - destruct (nth_error (workers p) w) as [[|job|]|] eqn:Hw;
      try discriminate.
    intros H. inversion H; subst p'. cbn [tasks stop workers taken done].
    destruct (running_set_worker (workers p) w (Running job) Waiting Hw)
      as (Hold & Hnew & Hlen).
    rewrite ?app_nil_r. split; [reflexivity|]. split; [|exact Hlen].
    rewrite Hold, Hnew. cbn [running flat_map app]. intros Hperm.
    eapply Permutation_trans; [|exact Hperm].
    rewrite <- app_assoc. apply Permutation_app_head.
    cbn [app]. apply Permutation_middle.
  - destruct (nth_error (workers p) w) as [[|job|]|] eqn:Hw;
      try discriminate.
    destruct (tasks p) as [|job rest] eqn:Ht; [|discriminate].
    destruct (stop p); [|discriminate].
    intros H. inversion H; subst p'. cbn [tasks stop workers taken done].
    destruct (running_set_worker (workers p) w Waiting Returned Hw)
      as (Hold & Hnew & Hlen).
    rewrite ?app_nil_r. split; [reflexivity|]. split; [|exact Hlen].
    rewrite Hold, Hnew. cbn [running flat_map app]. auto.
  - intros H. inversion H; subst p'. cbn [tasks stop workers taken done]. rewrite ?app_nil_r. auto.
Qed.

Lemma enqueued_cons (e : event T) (evs : list (event T)) :
  enqueued (e :: evs) = enqueued [e] ++ enqueued evs.
Proof.
  unfold enqueued. cbn [flat_map]. rewrite app_nil_r. reflexivity.
Qed.

Lemma pool_run_inv :
  forall (evs : list (event T)) (p p' : pool T),
    pool_run p evs = Some p' ->
    taken p' ++ tasks p' = (taken p ++ tasks p) ++ enqueued evs
    /\ (Permutation (done p ++ running (workers p)) (taken p) ->
        Permutation (done p' ++ running (workers p')) (taken p'))
    /\ length (workers p') = length (workers p).
Proof.
  induction evs as [|e evs IH]; intros p p' Hrun.
  - simpl in Hrun. inversion Hrun; subst p'. cbn.
    rewrite app_nil_r. auto.
  - cbn [pool_run] in Hrun.
    destruct (pool_step p e) as [p1|] eqn:Hstep; [|discriminate].
    destruct (pool_step_inv p p1 e Hstep) as (Hq & Hperm & Hlen).
    destruct (IH p1 p' Hrun) as (Hq' & Hperm' & Hlen').
    split; [|split].
    + rewrite Hq', Hq, (enqueued_cons e evs), app_assoc. reflexivity.
    + auto.
    + congruence.
Qed.

Lemma In_set_worker (ws : list (worker T)) (w : nat) (old x y : worker T) :
  nth_error ws w = Some old ->
  In y (set_worker ws w x) -> y = x \/ In y ws.
Proof.
  intros Hw Hin. unfold set_worker in Hin.
  rewrite <- (firstn_skipn_middle w ws Hw).
  apply in_app_or in Hin. destruct Hin as [Hin|[Hin|Hin]].
  - right. apply in_or_app. left. exact Hin.
  - left. symmetry. exact Hin.
  - right. apply in_or_app. right. right. exact Hin.
Qed.

Lemma In_set_worker_old (ws : list (worker T)) (w : nat) (old x : worker T) :
  nth_error ws w = Some old -> In x (set_worker ws w x).
Proof.
  intros _. unfold set_worker. apply in_or_app. right. left. reflexivity.
Qed.

Lemma pool_run_drained :
  forall (evs : list (event T)) (p p' : pool T),
    pool_run p evs = Some p' ->
    no_late_enqueue (stop p) evs = true ->
    drained p -> drained p'.
Proof.
  induction evs as [|e evs IH]; intros p p' Hrun Hlate Hd.
  - simpl in Hrun. inversion Hrun; subst p'. exact Hd.
  - cbn [pool_run] in Hrun.
    destruct (pool_step p e) as [p1|] eqn:Hstep; [|discriminate].
    apply (IH p1 p' Hrun); clear IH Hrun.
    + destruct e as [t|w|w|w|]; cbn [pool_step no_late_enqueue] in *.
      * inversion Hstep; subst p1. cbn.
        apply andb_true_iff in Hlate. apply Hlate.
      * destruct (nth_error (workers p) w) as [[|job|]|]; try discriminate.
        destruct (tasks p); [discriminate|].
        inversion Hstep; subst p1. exact Hlate.
      * destruct (nth_error (workers p) w) as [[|job|]|]; try discriminate.
        inversion Hstep; subst p1. exact Hlate.
      * destruct (nth_error (workers p) w) as [[|job|]|]; try discriminate.
        destruct (tasks p); [|discriminate].
        destruct (stop p); [|discriminate].
        inversion Hstep; subst p1. exact Hlate.
      * inversion Hstep; subst p1. exact Hlate.
    + unfold drained in *.
      destruct e as [t|w|w|w|]; cbn [pool_step no_late_enqueue] in *.
      * inversion Hstep; subst p1. cbn. intros Hin.
        apply andb_true_iff in Hlate. destruct Hlate as [Hns _].
        destruct (Hd Hin) as [Hs _]. rewrite Hs in Hns. discriminate.
      * destruct (nth_error (workers p) w) as [[|job|]|] eqn:Hw;
          try discriminate.
        destruct (tasks p) as [|job rest] eqn:Ht; [discriminate|].
        inversion Hstep; subst p1. cbn. intros Hin.
        destruct (In_set_worker _ _ _ _ _ Hw Hin) as [Habs|Hin'];
          [discriminate|].
        destruct (Hd Hin') as [_ Habs]. discriminate.
      * destruct (nth_error (workers p) w) as [[|job|]|] eqn:Hw;
          try discriminate.
        inversion Hstep; subst p1. cbn. intros Hin.
        destruct (In_set_worker _ _ _ _ _ Hw Hin) as [Habs|Hin'];
          [discriminate|].
        apply Hd, Hin'.
      * destruct (nth_error (workers p) w) as [[|job|]|] eqn:Hw;
          try discriminate.
        destruct (tasks p) as [|job rest] eqn:Ht; [|discriminate].
        destruct (stop p) eqn:Hs; [|discriminate].
        inversion Hstep; subst p1. cbn. auto.
      * inversion Hstep; subst p1. cbn. intros Hin.
        destruct (Hd Hin) as [_ Ht]. auto.
Qed.

End PoolInvariants.

(** [X13] In every run of a pool, the jobs are taken from the queue in
    the order in which they were enqueued, without loss and without
    repetition: the jobs taken so far followed by the queue are the jobs
    enqueued so far; and every job taken is running on one worker or has
    returned. *)
Theorem pool_fifo (T : Type) (n : nat) (evs : list (event T)) (p : pool T) :
  pool_run (ThreadPool n) evs = Some p ->
  taken p ++ tasks p = enqueued evs
  /\ Permutation (done p ++ running (workers p)) (taken p)
  /\ length (workers p) = n.
Proof.
  intros Hrun.
  destruct (pool_run_inv T evs (ThreadPool n) p Hrun) as (Hq & Hperm & Hlen).
  unfold ThreadPool in Hq, Hperm, Hlen.
  cbn [tasks stop workers taken done app] in Hq, Hperm, Hlen.
  rewrite repeat_length in Hlen.
  split; [exact Hq|]. split; [|exact Hlen].
  apply Hperm.
  assert (Hidle : forall k, running (repeat (@Waiting T) k) = [])
    by (induction k; [reflexivity|assumption]).
  rewrite Hidle. constructor.
Qed.

Lemma pool_fifo_witness :
  let p := {| tasks := [3]; stop := false;
              workers := [Waiting; Running 2];
              taken := [1; 2]; done := [1] |} in
  taken p ++ tasks p
  = enqueued [Enqueue 1; Enqueue 2; Take 0; Enqueue 3; Take 1; Finish 0]
  /\ Permutation (done p ++ running (workers p)) (taken p)
  /\ length (workers p) = 2.
Proof.
  apply (pool_fifo nat 2
           [Enqueue 1; Enqueue 2; Take 0; Enqueue 3; Take 1; Finish 0]).
  reflexivity.
Defined.

(** [X14] When all the workers of a pool of at least one worker have
    returned (the joins of the destructor are over) and nothing was
    enqueued after the destructor set [stop], the queue is empty and
    every job enqueued has been run, once. *)
Theorem pool_drains (T : Type) (n : nat) (evs : list (event T)) (p : pool T) :
  1 <= n ->
  pool_run (ThreadPool n) evs = Some p ->
  no_late_enqueue false evs = true ->
  Forall (fun w => w = Returned) (workers p) ->
  tasks p = [] /\ stop p = true /\ Permutation (done p) (enqueued evs).
Proof.
  intros Hn Hrun Hlate Hall.
  destruct (pool_run_inv T evs (ThreadPool n) p Hrun) as (Hq & Hperm & Hlen).
  unfold ThreadPool in Hq, Hperm, Hlen.
  cbn [tasks stop workers taken done app] in Hq, Hperm, Hlen.
  rewrite repeat_length in Hlen.
  assert (Hidle : forall k, running (repeat (@Waiting T) k) = [])
    by (induction k; [reflexivity|assumption]).
  rewrite Hidle in Hperm. specialize (Hperm (Permutation_refl _)).
  assert (Hd : drained p).
  { apply (pool_run_drained T evs (ThreadPool n) p Hrun Hlate).
    unfold drained, ThreadPool. cbn [tasks stop workers taken done].
    intros Hin. apply repeat_spec in Hin.
    discriminate. }
  assert (Hin : In Returned (workers p)).
  { destruct (workers p) as [|w ws]; [simpl in Hlen; lia|].
    inversion Hall; subst. left. reflexivity. }
  destruct (Hd Hin) as [Hs Ht].
  split; [exact Ht|]. split; [exact Hs|].
  rewrite Ht, app_nil_r in Hq. rewrite <- Hq.
  assert (Hnone : running (workers p) = []).
  { clear -Hall. induction Hall as [|w ws Hw _ IH]; [reflexivity|].
    subst w. exact IH. }
  rewrite Hnone, app_nil_r in Hperm. exact Hperm.
Qed.

Lemma pool_drains_witness :
  let p := {| tasks := []; stop := true;
              workers := [Returned; Returned];
              taken := [1; 2]; done := [2; 1] |} in
  tasks p = [] /\ stop p = true
  /\ Permutation (done p)
       (enqueued [Enqueue 1; Enqueue 2; Take 0; Take 1; Finish 1; Shutdown;
                  Finish 0; Exit 0; Exit 1]).
Proof.
  apply (pool_drains nat 2
           [Enqueue 1; Enqueue 2; Take 0; Take 1; Finish 1; Shutdown;
            Finish 0; Exit 0; Exit 1]).
  - lia.
  - reflexivity.
  - reflexivity.
  - repeat constructor.
Defined.
